(** * groin: the CVS detection option and the file-processing library

    A shallow embedding of

      - [src/ips_options/ips_cvs.cc]: the [cvs: invalid-entry] rule option
        (line splitting, command tokenising, Entry validation, decoding);
      - [src/file_api/libs/file_lib.cc]: the depth limiter, file type
        identification and the SHA-256 file signature;

    followed by the properties of both that the specification states.

    Conventions.  A packet payload is a [list byte]; a pointer into it is
    its offset ([nat]), and a pointer that may be null is an [option]
    ([None] is [NULL]).  Lengths that the source computes as differences of
    two pointers into the same payload, and the count of separators, are
    natural numbers: a payload has at most 65535 bytes ([data_len] is a
    [uint16_t]), so none of these [int]s can wrap.  Where the source mixes
    signed and unsigned integers (the depth limiter) the numbers are in
    [Z] and every conversion is written out.  The C loops are written with
    a fuel argument; the fuel each entry point supplies is shown to be
    enough in every case, so [None] is never returned. *)

From Stdlib Require Import String.
From Stdlib Require Import List ZArith Lia Bool Arith.
From Stdlib Require Strings.Byte.
Import ListNotations.
Import Stdlib.Init.Byte.

(* ====================================================================== *)
(** * Part I.  The program                                                 *)
(* ====================================================================== *)

(** ** Memory primitives of the C library *)

Module libc.

(** A pointer that may be [NULL]. *)
Definition ptr := option nat.

(** [*p].  The C program defines it for [p] inside the payload only; the
    properties below that read the payload take its length as a bound. *)
Definition deref (buf : list byte) (p : nat) : byte := nth p buf x00.

(** [memchr(s, c, n)]: the first position in [s, s+n) that holds [c]. *)
Fixpoint memchr (buf : list byte) (s : nat) (c : byte) (n : nat) : ptr :=
  match n with
  | 0 => None
  | S n' => if Byte.eqb (deref buf s) c then Some s
            else memchr buf (S s) c n'
  end.

(** [memcmp(s1, s2, n)], where [s2] is a string literal: the difference of
    the first pair of bytes that differ, [0] when there is none. *)
Fixpoint memcmp (buf : list byte) (s1 : nat) (s2 : list byte) (n : nat) : Z :=
  match n with
  | 0 => 0%Z
  | S n' =>
      let a := deref buf s1 in
      let b := hd x00 s2 in
      if Byte.eqb a b then memcmp buf (S s1) (tl s2) n'
      else (Z.of_nat (Byte.to_nat a) - Z.of_nat (Byte.to_nat b))%Z
  end.

(** [strlen] of a string literal. *)
Definition strlen (s : list byte) : nat := length s.

(** [p + n] on a pointer that may be null. *)
Definition ptr_add (p : ptr) (n : nat) : ptr :=
  match p with
  | None => None
  | Some a => Some (a + n)
  end.

End libc.

(** ** [ips_cvs.cc] *)

Module ips_cvs.
Import libc.

Definition CVS_COMMAND_DELIMITER : byte := x0a.
Definition CVS_COMMAND_SEPARATOR : byte := " "%byte.

Definition CVS_NO_ALERT : Z := 0.
Definition CVS_ALERT : Z := 1.

Definition CVS_ENTRY_STR : list byte := list_byte_of_string "Entry".
Definition CVS_ENTRY_VALID : Z := 0.
Definition CVS_ENTRY_INVALID : Z := 1.

(** [enum CvsTypes], by value: the field can also hold the [0] that
    [cvs_ctor] fills the option with before parsing. *)
Definition CvsTypes := Z.
Definition CVS_INVALID_ENTRY : CvsTypes := 1%Z.
Definition CVS_END_OF_ENUM : CvsTypes := 2%Z.

Record CvsRuleOption := { type : CvsTypes }.

(** A CVS command with its argument. *)
Record CvsCommand := {
  cmd_str : ptr;
  cmd_str_len : nat;
  cmd_arg : ptr;
  cmd_arg_len : nat
}.

(** [CvsGetEOL]: the pair [(eol, eolm)] it stores through its last two
    arguments; [eolm] is the end-of-line marker, [eol] the byte after it. *)
Definition CvsGetEOL (buf : list byte) (p end_ : nat) : nat * nat :=
  match memchr buf p CVS_COMMAND_DELIMITER (end_ - p) with
  | None => (end_, end_)
  | Some eolm => (eolm + 1, eolm)
  end.

(** [CvsGetCommand]: the command it stores through [cmd], which is the
    address of a local variable of [CvsDecode] and so never null. *)
Definition CvsGetCommand (buf : list byte) (line : ptr) (end_ : nat)
  : CvsCommand :=
  match line with
  | None =>
      {| cmd_str := None; cmd_str_len := 0; cmd_arg := None; cmd_arg_len := 0 |}
  | Some line =>
      match memchr buf line CVS_COMMAND_SEPARATOR (end_ - line) with
      | Some cmd_end =>
          {| cmd_str := Some line;
             cmd_str_len := cmd_end - line;
             cmd_arg := Some (cmd_end + 1);
             cmd_arg_len := end_ - cmd_end - 1 |}
      | None =>
          {| cmd_str := Some line;
             cmd_str_len := end_ - line;
             cmd_arg := None;
             cmd_arg_len := 0 |}
      end
  end.

(** [CvsCmdCompare]: [0] if equal, [1] if not. *)
Definition CvsCmdCompare (cmd : list byte) (buf : list byte)
    (pkt_cmd : nat) (pkt_cmd_len : nat) : Z :=
  if (pkt_cmd_len =? strlen cmd)
     && (memcmp buf pkt_cmd cmd pkt_cmd_len =? 0)%Z
  then 0%Z else 1%Z.

(** How the [while] loop of [CvsValidateEntry] is left. *)
Inductive loop_exit :=
| Returned (ret : Z)        (* a [return] inside the body *)
| Fell (slashes : nat).     (* the condition failed, or [break] *)

Fixpoint CvsValidateEntry_loop (fuel : nat) (buf : list byte)
    (entry_arg end_arg : nat) (slashes : nat) : option loop_exit :=
  if entry_arg <? end_arg then
    match fuel with
    | 0 => None
    | S fuel' =>
        let c := deref buf entry_arg in
        if (slashes =? 3)
           && (negb (Byte.eqb c "/") && negb (Byte.eqb c "+"))
        then Some (Returned CVS_ENTRY_INVALID)
        else if negb (Byte.eqb c "/") then
          match memchr buf entry_arg "/" (end_arg - entry_arg) with
          | None => Some (Fell slashes)
          | Some p =>
              CvsValidateEntry_loop fuel' buf (p + 1) end_arg (slashes + 1)
          end
        else
          CvsValidateEntry_loop fuel' buf (entry_arg + 1) end_arg (slashes + 1)
    end
  else Some (Fell slashes).

Definition CvsValidateEntry (buf : list byte) (entry_arg end_arg : ptr)
  : option Z :=
  match entry_arg, end_arg with
  | Some entry_arg, Some end_arg =>
      match CvsValidateEntry_loop (end_arg - entry_arg) buf
                                  entry_arg end_arg 0 with
      | None => None
      | Some (Returned ret) => Some ret
      | Some (Fell slashes) =>
          if negb (slashes =? 5) then Some CVS_ENTRY_INVALID
          else Some CVS_ENTRY_VALID
      end
  | _, _ => Some CVS_ENTRY_VALID
  end.

(** One pass through the body of the loop of [CvsDecode] for the line that
    starts at [line]: [inl ret] when the body returns [ret], [inr eol]
    when it reaches [line = eol]. *)
Definition CvsDecode_body (buf : list byte) (line end_ : nat)
    (cvs_rule_option : CvsRuleOption) : option (Z + nat) :=
  let '(eol, eolm) := CvsGetEOL buf line end_ in
  let command := CvsGetCommand buf (Some line) eolm in
  match cmd_str command with
  | None => Some (inl CVS_NO_ALERT)
  | Some cmd_str_ =>
      if (type cvs_rule_option =? CVS_INVALID_ENTRY)%Z then
        if (CvsCmdCompare CVS_ENTRY_STR buf cmd_str_ (cmd_str_len command)
            =? 0)%Z
        then
          match CvsValidateEntry buf (cmd_arg command)
                  (ptr_add (cmd_arg command) (cmd_arg_len command)) with
          | None => None
          | Some ret =>
              if (ret =? CVS_ENTRY_INVALID)%Z && (eol <? end_)
              then Some (inl CVS_ALERT)
              else Some (inr eol)
          end
        else Some (inr eol)
      else Some (inr eol)
  end.

Fixpoint CvsDecode_loop (fuel : nat) (buf : list byte) (line end_ : nat)
    (cvs_rule_option : CvsRuleOption) : option Z :=
  if line <? end_ then
    match fuel with
    | 0 => None
    | S fuel' =>
        match CvsDecode_body buf line end_ cvs_rule_option with
        | None => None
        | Some (inl ret) => Some ret
        | Some (inr eol) => CvsDecode_loop fuel' buf eol end_ cvs_rule_option
        end
    end
  else Some CVS_NO_ALERT.

(** [CvsDecode(data, data_len, cvs_rule_option)]; offsets are relative to
    [data], so [line] starts at [0] and [end] is [data_len]. *)
Definition CvsDecode (data : list byte) (data_len : nat)
    (cvs_rule_option : CvsRuleOption) : option Z :=
  CvsDecode_loop data_len data 0 data_len cvs_rule_option.

(** The fields of [Packet] that [eval] reads. *)
Record Packet := {
  tcph : option unit;          (* the TCP header, when there is one *)
  data : option (list byte);
  dsize : nat
}.

(** The two results of [detection_defines.h] that [eval] returns. *)
Inductive detection_option_result :=
| DETECTION_OPTION_NO_MATCH
| DETECTION_OPTION_MATCH.

(** [CvsOption::eval]; [config] is the option's own configuration, whose
    address is never null. *)
Definition eval (config : CvsRuleOption) (p : option Packet)
  : option detection_option_result :=
  let rval := DETECTION_OPTION_NO_MATCH in
  match p with
  | None => Some rval
  | Some p =>
      match tcph p, data p with
      | Some _, Some payload =>
          if dsize p =? 0 then Some rval
          else
            match CvsDecode payload (dsize p) config with
            | None => None
            | Some ret =>
                if (ret =? CVS_ALERT)%Z then Some DETECTION_OPTION_MATCH
                else Some rval
            end
      | _, _ => Some rval
      end
  end.

End ips_cvs.

(** ** [hash/hashes.h]: SHA-256 *)

Module hashes.

(** Modelled from the spec: the digest library ([hash/hashes.h] and the
    SHA-256 code behind it are not under src/).  The spec asks for "a
    256-bit cryptographic hash (e.g., SHA-256) computed incrementally;
    output is a fixed 32-byte value".  This is SHA-256 as FIPS 180-4
    defines it, on 32-bit words held in [Z]. *)
Definition w32 (x : Z) : Z := (x mod 4294967296)%Z.

Definition rotr (n x : Z) : Z :=
  Z.lor (Z.shiftr x n) (w32 (Z.shiftl x (32 - n))).

Definition xor3 (x y z : Z) : Z := Z.lxor (Z.lxor x y) z.

Definition Ch (x y z : Z) : Z :=
  Z.lxor (Z.land x y) (Z.land (Z.lxor x 4294967295) z).

Definition Maj (x y z : Z) : Z :=
  xor3 (Z.land x y) (Z.land x z) (Z.land y z).

Definition Sigma0 (x : Z) : Z := xor3 (rotr 2 x) (rotr 13 x) (rotr 22 x).
Definition Sigma1 (x : Z) : Z := xor3 (rotr 6 x) (rotr 11 x) (rotr 25 x).
Definition sigma0 (x : Z) : Z := xor3 (rotr 7 x) (rotr 18 x) (Z.shiftr x 3).
Definition sigma1 (x : Z) : Z := xor3 (rotr 17 x) (rotr 19 x) (Z.shiftr x 10).

(** The round constants and the initial hash value, in decimal. *)
Definition K256 : list Z :=
  [ 1116352408; 1899447441; 3049323471; 3921009573; 961987163; 1508970993;
    2453635748; 2870763221; 3624381080; 310598401; 607225278; 1426881987;
    1925078388; 2162078206; 2614888103; 3248222580; 3835390401;
    4022224774; 264347078; 604807628; 770255983; 1249150122; 1555081692;
    1996064986; 2554220882; 2821834349; 2952996808; 3210313671;
    3336571891; 3584528711; 113926993; 338241895; 666307205; 773529912;
    1294757372; 1396182291; 1695183700; 1986661051; 2177026350;
    2456956037; 2730485921; 2820302411; 3259730800; 3345764771;
    3516065817; 3600352804; 4094571909; 275423344; 430227734; 506948616;
    659060556; 883997877; 958139571; 1322822218; 1537002063; 1747873779;
    1955562222; 2024104815; 2227730452; 2361852424; 2428436474;
    2756734187; 3204031479; 3329325298 ]%Z.

Definition sha256_initial_hash_value : list Z :=
  [ 1779033703; 3144134277; 1013904242; 2773480762;
    1359893119; 2600822924; 528734635; 1541459225 ]%Z.

Definition Z_of_byte (b : byte) : Z := Z.of_N (Byte.to_N b).

Definition byte_of_Z (z : Z) : byte :=
  match Byte.of_N (Z.to_N (z mod 256)) with
  | Some b => b
  | None => x00
  end.

(** Big-endian 32-bit words. *)
Fixpoint words_of_bytes (l : list byte) : list Z :=
  match l with
  | a :: b :: c :: d :: t =>
      (Z_of_byte a * 16777216 + Z_of_byte b * 65536
       + Z_of_byte c * 256 + Z_of_byte d)%Z :: words_of_bytes t
  | _ => []
  end.

Definition bytes_of_word (x : Z) : list byte :=
  [ byte_of_Z (x / 16777216); byte_of_Z (x / 65536);
    byte_of_Z (x / 256); byte_of_Z x ]%Z.

(** Padding of a message of [len] bytes: [0x80], zero bytes up to 56
    modulo 64, then the length in bits on 64 bits. *)
Definition padding (len : nat) : list byte :=
  let bits := (Z.of_nat len * 8)%Z in
  x80 :: repeat x00 (Z.to_nat ((55 - Z.of_nat len) mod 64))
      ++ bytes_of_word (bits / 4294967296) ++ bytes_of_word bits.

Definition round (st : list Z) (kt wt : Z) : list Z :=
  match st with
  | [a; b; c; d; e; f; g; h] =>
      let T1 := w32 (h + Sigma1 e + Ch e f g + kt + wt) in
      let T2 := w32 (Sigma0 a + Maj a b c) in
      [w32 (T1 + T2); a; b; c; w32 (d + T1); e; f; g]
  | _ => st
  end.

(** The message schedule as a sliding window of sixteen words. *)
Definition next_w (win : list Z) : Z :=
  w32 (sigma1 (nth 14 win 0) + nth 9 win 0
       + sigma0 (nth 1 win 0) + nth 0 win 0)%Z.

Fixpoint rounds (ks : list Z) (win : list Z) (st : list Z) : list Z :=
  match ks with
  | [] => st
  | kt :: ks' =>
      rounds ks' (tl win ++ [next_w win]) (round st kt (hd 0%Z win))
  end.

Fixpoint add_words (h st : list Z) : list Z :=
  match h, st with
  | x :: h', y :: st' => w32 (x + y) :: add_words h' st'
  | _, _ => []
  end.

Definition compress (h : list Z) (block : list byte) : list Z :=
  add_words h (rounds K256 (words_of_bytes block) h).

Fixpoint hash_blocks (n : nat) (h : list Z) (bytes : list byte) : list Z :=
  match n with
  | 0 => h
  | S n' => hash_blocks n' (compress h (firstn 64 bytes)) (skipn 64 bytes)
  end.

(** The digest of [msg] for a chaining value that starts at [h]. *)
Definition digest_from (h : list Z) (msg : list byte) : list byte :=
  let padded := msg ++ padding (length msg) in
  flat_map bytes_of_word (hash_blocks (length padded / 64) h padded).

Definition SHA256 (msg : list byte) : list byte :=
  digest_from sha256_initial_hash_value msg.

Definition SHA256_HASH_SIZE : nat := 32.

(** Modelled from the spec: the incremental interface ("computed
    incrementally ... sealed by a finalize step"), as the implementations
    of SHA-256 have it.  A context holds the chaining value, the count of
    the bits fed so far, and the bytes of the last block while it is
    incomplete; [SHA256_Update] hashes every block that fills up,
    [SHA256_Final] pads what is left and hashes it.  Zero-filled storage,
    as [SnortAlloc] returns it, is the context in which all of these are
    zero or empty, and [SHA256_Final] leaves a context in that state
    ("the digest state is consumed"). *)
Record SHA256_CTX := {
  state : list Z;
  bitcount : Z;
  buffer : list byte
}.

Definition zero_filled : SHA256_CTX :=
  {| state := repeat 0%Z 8; bitcount := 0; buffer := [] |}.

Definition SHA256_Init (c : SHA256_CTX) : SHA256_CTX :=
  {| state := sha256_initial_hash_value; bitcount := 0; buffer := [] |}.

Definition SHA256_Update (c : SHA256_CTX) (data : list byte) (len : Z)
  : SHA256_CTX :=
  let input := buffer c ++ firstn (Z.to_nat len) data in
  let blocks := length input / 64 in
  {| state := hash_blocks blocks (state c) input;
     bitcount := bitcount c + 8 * Z.of_nat (length (firstn (Z.to_nat len) data));
     buffer := skipn (64 * blocks) input |}.

(** The digest written to [md], and the context afterwards. *)
Definition SHA256_Final (c : SHA256_CTX) : list byte * SHA256_CTX :=
  let last := buffer c ++ padding (Z.to_nat (bitcount c / 8)) in
  (flat_map bytes_of_word
     (hash_blocks (length last / 64) (state c) last),
   zero_filled).

(** The context [c] is what feeding the bytes [msg], in any number of
    calls, makes of a context whose chaining value was [h0] and which was
    otherwise empty. *)
Definition absorbed (c : SHA256_CTX) (h0 : list Z) (msg : list byte) : Prop :=
  state c = hash_blocks (length msg / 64) h0 msg /\
  buffer c = skipn (64 * (length msg / 64)) msg /\
  bitcount c = (8 * Z.of_nat (length msg))%Z.

End hashes.

(** ** [file_lib.cc] *)

Module file_lib.
Import hashes.

(** What a call can come to: it runs to its end, or it reads through a
    null pointer, which C++ leaves undefined. *)
Inductive outcome (A : Type) :=
| Done (a : A)
| NullDeref.
Arguments Done {A} a.
Arguments NullDeref {A}.

Definition bind {A B : Type} (c : outcome A) (k : A -> outcome B)
  : outcome B :=
  match c with
  | Done a => k a
  | NullDeref => NullDeref
  end.

Notation "x <- c ;; k" := (bind c (fun x => k))
  (at level 61, c at next level, right associativity).

(** [p->f]. *)
Definition arrow {A B : Type} (p : option A) (f : A -> B) : outcome B :=
  match p with
  | Some a => Done (f a)
  | None => NullDeref
  end.

(** Modelled from the spec: [FileProcessType] and [FilePosition] (declared
    in a header that is not under src/): the kinds and positions that the
    [switch] statements name, and one more of each for their [default]
    branch. *)
Inductive FileProcessType :=
| SNORT_FILE_TYPE_ID
| SNORT_FILE_SHA256
| SNORT_FILE_CAPTURE.

Inductive FilePosition :=
| SNORT_FILE_POSITION_UNKNOWN
| SNORT_FILE_START
| SNORT_FILE_MIDDLE
| SNORT_FILE_END
| SNORT_FILE_FULL.

(** Modelled from the spec: the two depths of [FileConfig]
    ([file_config.h] is not under src/), as the unsigned 64-bit values
    that [max_depth] receives. *)
Record FileConfig := {
  file_type_depth : Z;
  file_signature_depth : Z
}.

(** Modelled from the spec: [FileContext] ([file_lib.h] is not under
    src/), with the fields that [file_lib.cc] reads and writes.
    [processed_bytes] is unsigned on 64 bits, [file_type_id] unsigned on
    32 bits; [file_type_context] is the classifier's own pointer. *)
Module FileContext.
Record t := {
  file_config : option FileConfig;
  processed_bytes : Z;
  file_type_id : Z;
  file_type_context : option nat;
  file_signature_context : option SHA256_CTX;
  sha256 : option (list byte);
  file_name : option (list byte);
  file_name_size : Z;
  file_size : Z;
  upload : bool
}.

Definition set_file_type_id (c : t) (v : Z) : t :=
  {| file_config := file_config c; processed_bytes := processed_bytes c;
     file_type_id := v; file_type_context := file_type_context c;
     file_signature_context := file_signature_context c;
     sha256 := sha256 c; file_name := file_name c;
     file_name_size := file_name_size c; file_size := file_size c;
     upload := upload c |}.

Definition set_file_type_context (c : t) (v : option nat) : t :=
  {| file_config := file_config c; processed_bytes := processed_bytes c;
     file_type_id := file_type_id c; file_type_context := v;
     file_signature_context := file_signature_context c;
     sha256 := sha256 c; file_name := file_name c;
     file_name_size := file_name_size c; file_size := file_size c;
     upload := upload c |}.

Definition set_file_signature_context (c : t) (v : option SHA256_CTX) : t :=
  {| file_config := file_config c; processed_bytes := processed_bytes c;
     file_type_id := file_type_id c;
     file_type_context := file_type_context c;
     file_signature_context := v;
     sha256 := sha256 c; file_name := file_name c;
     file_name_size := file_name_size c; file_size := file_size c;
     upload := upload c |}.

Definition set_sha256 (c : t) (v : option (list byte)) : t :=
  {| file_config := file_config c; processed_bytes := processed_bytes c;
     file_type_id := file_type_id c;
     file_type_context := file_type_context c;
     file_signature_context := file_signature_context c;
     sha256 := v; file_name := file_name c;
     file_name_size := file_name_size c; file_size := file_size c;
     upload := upload c |}.
End FileContext.

(** What [file_lib.cc] takes from [file_identifier.h] and [file_config.h]:
    the two reserved type identifiers and the classifier
    [FileConfig::find_file_type_id], which returns the identifier it
    found and may write to the context it is given. *)
Class file_identifier := {
  SNORT_FILE_TYPE_UNKNOWN : Z;
  SNORT_FILE_TYPE_CONTINUE : Z;
  find_file_type_id :
    FileConfig -> list byte -> Z -> FileContext.t -> Z * FileContext.t
}.

(** Conversions of the usual arithmetic: to [uint64_t], and to [int]. *)
Definition to_uint64 (x : Z) : Z := (x mod 18446744073709551616)%Z.
Definition to_int (x : Z) : Z :=
  ((x + 2147483648) mod 4294967296 - 2147483648)%Z.

Definition get_data_size_from_depth_limit (context : FileContext.t)
    (type : FileProcessType) (data_size : Z) : Z :=
  match FileContext.file_config context with
  | None => data_size
  | Some file_config =>
      let max_depth :=
        match type with
        | SNORT_FILE_TYPE_ID => Some (file_type_depth file_config)
        | SNORT_FILE_SHA256 => Some (file_signature_depth file_config)
        | _ => None
        end in
      match max_depth with
      | None => data_size
      | Some max_depth =>
          if (FileContext.processed_bytes context >? max_depth)%Z
          then (-1)%Z
          else if (to_uint64 (FileContext.processed_bytes context
                              + to_uint64 data_size) >? max_depth)%Z
          then to_int (to_uint64
                         (max_depth - FileContext.processed_bytes context))
          else data_size
      end
  end.

Section with_file_identifier.
Context {fid : file_identifier}.

(** [file_config->find_file_type_id(file_data, data_size, context)],
    stored in [context->file_type_id]. *)
Definition classify (file_config : option FileConfig)
    (file_data : list byte) (data_size : Z) (context : FileContext.t)
  : outcome FileContext.t :=
  r <- arrow file_config
         (fun cfg => find_file_type_id cfg file_data data_size context) ;;
  Done (FileContext.set_file_type_id (snd r) (fst r)).

(** The result is the context that [context] points to when the call is
    over ([None] for a null pointer). *)
Definition file_type_id (context : option FileContext.t)
    (file_data : list byte) (data_size : Z) (position : FilePosition)
  : outcome (option FileContext.t) :=
  file_config <- arrow context FileContext.file_config ;;
  match context with
  | None => Done None
  | Some context =>
      if negb (SNORT_FILE_TYPE_CONTINUE =? FileContext.file_type_id context)%Z
      then Done (Some context)
      else
        let data_size :=
          get_data_size_from_depth_limit context SNORT_FILE_TYPE_ID
                                         data_size in
        if (data_size <? 0)%Z then
          Done (Some (FileContext.set_file_type_id context
                        SNORT_FILE_TYPE_UNKNOWN))
        else
          let force_unknown (c : FileContext.t) :=
            if (SNORT_FILE_TYPE_CONTINUE =? FileContext.file_type_id c)%Z
            then FileContext.set_file_type_id c SNORT_FILE_TYPE_UNKNOWN
            else c in
          match position with
          | SNORT_FILE_START =>
              let context := FileContext.set_file_type_context context None in
              c <- classify file_config file_data data_size context ;;
              Done (Some c)
          | SNORT_FILE_MIDDLE =>
              c <- classify file_config file_data data_size context ;;
              Done (Some c)
          | SNORT_FILE_END =>
              c <- classify file_config file_data data_size context ;;
              Done (Some (force_unknown c))
          | SNORT_FILE_FULL =>
              let context := FileContext.set_file_type_context context None in
              c <- classify file_config file_data data_size context ;;
              Done (Some (force_unknown c))
          | _ => Done (Some context)
          end
  end.

(** The type that is stored for the last chunk of a file: undecided
    becomes unknown. *)
Definition type_at_end_of_data (id : Z) : Z :=
  if (SNORT_FILE_TYPE_CONTINUE =? id)%Z then SNORT_FILE_TYPE_UNKNOWN else id.

End with_file_identifier.

(** [context->file_signature_context], allocated when it is null. *)
Definition signature_context_or_alloc (context : FileContext.t)
  : SHA256_CTX :=
  match FileContext.file_signature_context context with
  | Some c => c
  | None => zero_filled
  end.

(** [context->sha256 = SnortAlloc(SHA256_HASH_SIZE); SHA256FINAL(...)]. *)
Definition finalize (context : FileContext.t) (c : SHA256_CTX)
  : FileContext.t :=
  let '(md, c') := SHA256_Final c in
  FileContext.set_sha256
    (FileContext.set_file_signature_context context (Some c')) (Some md).

Definition file_signature_sha256 (context : option FileContext.t)
    (file_data : list byte) (data_size : Z) (position : FilePosition)
  : outcome (option FileContext.t) :=
  match context with
  | None => Done None
  | Some context =>
      let data_size :=
        get_data_size_from_depth_limit context SNORT_FILE_SHA256 data_size in
      if (data_size <? 0)%Z then Done (Some context)
      else
        match position with
        | SNORT_FILE_START =>
            let c := SHA256_Init zero_filled in
            let c := SHA256_Update c file_data data_size in
            Done (Some (FileContext.set_file_signature_context
                          context (Some c)))
        | SNORT_FILE_MIDDLE =>
            let c := signature_context_or_alloc context in
            let c := SHA256_Update c file_data data_size in
            Done (Some (FileContext.set_file_signature_context
                          context (Some c)))
        | SNORT_FILE_END =>
            let c := signature_context_or_alloc context in
            let c := SHA256_Update c file_data data_size in
            Done (Some (finalize context c))
        | SNORT_FILE_FULL =>
            let c := SHA256_Init zero_filled in
            let c := SHA256_Update c file_data data_size in
            Done (Some (finalize context c))
        | _ => Done (Some context)
        end
  end.

(** A chunk as the callers deliver it: the data, its length and its
    position in the file. *)
Record chunk := {
  chunk_data : list byte;
  chunk_size : Z;
  chunk_position : FilePosition
}.

(** A chunk that is all of [d]. *)
Definition chunk_of (d : list byte) (position : FilePosition) : chunk :=
  {| chunk_data := d; chunk_size := Z.of_nat (length d);
     chunk_position := position |}.

(** The chunks of one file, delivered in order to one of the two
    functions. *)
Fixpoint feed
    (f : option FileContext.t -> list byte -> Z -> FilePosition ->
         outcome (option FileContext.t))
    (context : option FileContext.t) (chunks : list chunk)
  : outcome (option FileContext.t) :=
  match chunks with
  | [] => Done context
  | c :: rest =>
      context' <- f context (chunk_data c) (chunk_size c) (chunk_position c) ;;
      feed f context' rest
  end.

(** [context->sha256] when the calls are over. *)
Definition final_signature (o : outcome (option FileContext.t))
  : option (list byte) :=
  match o with
  | Done (Some context) => FileContext.sha256 context
  | _ => None
  end.

(** The depth that is configured for a kind of processing, when there is
    one. *)
Definition configured_depth (context : FileContext.t)
    (type : FileProcessType) : option Z :=
  match FileContext.file_config context with
  | None => None
  | Some file_config =>
      match type with
      | SNORT_FILE_TYPE_ID => Some (file_type_depth file_config)
      | SNORT_FILE_SHA256 => Some (file_signature_depth file_config)
      | _ => None
      end
  end.

(** No depth limit is in effect on a file of [total] bytes: the limiter
    lets every length up to [total] through as it is. *)
Definition no_limit_in_effect (context : FileContext.t) (total : Z) : Prop :=
  forall n, (0 <= n <= total)%Z ->
            get_data_size_from_depth_limit context SNORT_FILE_SHA256 n = n.

End file_lib.

(** ** The words of the specification *)

Module shape.
Import libc ips_cvs.

(** The bytes of the payload from offset [a] up to, not including, [e]. *)
Definition range (buf : list byte) (a e : nat) : list byte :=
  firstn (e - a) (skipn a buf).

(** The number of separator bytes ['/'] in an argument. *)
Definition count_sep (l : list byte) : nat :=
  count_occ Byte.byte_eq_dec l "/"%byte.

(** The byte immediately after the [k]-th separator of [l]; for [k = 0],
    the first byte of [l]. *)
Fixpoint byte_after_sep (k : nat) (l : list byte) {struct l} : option byte :=
  match l with
  | [] => None
  | b :: t =>
      match k with
      | 0 => Some b
      | S k' => if Byte.eqb b "/" then byte_after_sep k' t
                else byte_after_sep k t
      end
  end.

(** An Entry argument of the expected shape: exactly five separators, and
    ['/'] or ['+'] right after the third. *)
Definition well_formed_entry (arg : list byte) : Prop :=
  count_sep arg = 5 /\
  (byte_after_sep 3 arg = Some "/"%byte \/
   byte_after_sep 3 arg = Some "+"%byte).

Definition slash_or_plus (b : byte) : bool :=
  Byte.eqb b "/" || Byte.eqb b "+".

(** The same shape for an argument of which [s] separators were already
    read and [l] is what remains, the reading having stopped right after
    a separator (or at the start). *)
Definition entry_ok_from (s : nat) (l : list byte) : bool :=
  (s + count_sep l =? 5)
  && (if s <=? 3
      then match byte_after_sep (3 - s) l with
           | Some b => slash_or_plus b
           | None => false
           end
      else true).

(** [pre] ends where a line starts: it is empty or ends with the
    delimiter. *)
Definition ends_a_line (pre : list byte) : Prop :=
  pre = [] \/ exists pre', pre = pre' ++ [CVS_COMMAND_DELIMITER].

(** A line that is a command name standing for "Entry", a separator, and
    an argument that is not a well-formed entry; [is_entry] says which
    names stand for "Entry". *)
Definition malformed_entry_line (is_entry : list byte -> Prop)
    (ln : list byte) : Prop :=
  exists name arg,
    ln = name ++ CVS_COMMAND_SEPARATOR :: arg /\
    ~ In CVS_COMMAND_SEPARATOR name /\
    is_entry name /\ ~ well_formed_entry arg.

(** Some line of [payload] is such a line, and at least one byte follows
    the delimiter that ends it. *)
Definition malformed_entry_followed (is_entry : list byte -> Prop)
    (payload : list byte) : Prop :=
  exists pre ln post,
    payload = pre ++ ln ++ CVS_COMMAND_DELIMITER :: post /\
    ends_a_line pre /\
    ~ In CVS_COMMAND_DELIMITER ln /\
    malformed_entry_line is_entry ln /\
    post <> [].

(** The name is "Entry", byte for byte. *)
Definition is_Entry (name : list byte) : Prop := name = CVS_ENTRY_STR.

(** The name is "Entry" without regard to the case of letters. *)
Definition tolower (b : byte) : byte :=
  let n := Byte.to_nat b in
  if (65 <=? n) && (n <=? 90)
  then match Byte.of_nat (n + 32) with Some b' => b' | None => b end
  else b.

Definition is_Entry_nocase (name : list byte) : Prop :=
  map tolower name = map tolower CVS_ENTRY_STR.

End shape.

(** ** Inputs to run the program on *)

Module samples.
Import ips_cvs hashes file_lib.

(** A well-formed Entry argument. *)
Definition entry_arg_sample : list byte :=
  list_byte_of_string "/cvs.c/1.5///".

(** An Entry line with a separator and nothing after it, then one more
    byte. *)
Definition empty_entry_payload : list byte :=
  list_byte_of_string "Entry " ++ [CVS_COMMAND_DELIMITER; "x"%byte].

Definition invalid_entry_option : CvsRuleOption :=
  {| type := CVS_INVALID_ENTRY |}.

(** The payloads of the specification's two scenarios: a well-formed
    Entry, then an Unchanged line; and an Entry with four separators, then
    a Modified line. *)
Definition unchanged_payload : list byte :=
  list_byte_of_string "Entry /cvs.c/1.5///"
    ++ CVS_COMMAND_DELIMITER :: list_byte_of_string "Unchanged"
    ++ [CVS_COMMAND_DELIMITER].

Definition modified_payload : list byte :=
  list_byte_of_string "Entry /cvs.cXX1.5///"
    ++ CVS_COMMAND_DELIMITER :: list_byte_of_string "Modified"
    ++ [CVS_COMMAND_DELIMITER].

(** The same with the command name in lower case. *)
Definition lowercase_payload : list byte :=
  list_byte_of_string "entry /cvs.cXX1.5///"
    ++ CVS_COMMAND_DELIMITER :: list_byte_of_string "Modified"
    ++ [CVS_COMMAND_DELIMITER].

Definition bytes_a : list byte := list_byte_of_string "a".
Definition bytes_b : list byte := list_byte_of_string "b".
Definition bytes_ab : list byte := list_byte_of_string "ab".
Definition bytes_cd : list byte := list_byte_of_string "cd".
Definition bytes_ef : list byte := list_byte_of_string "ef".
Definition bytes_g : list byte := list_byte_of_string "g".

(** A context as it is created, all fields zero, for a configuration. *)
Definition new_context (file_config : option FileConfig) : FileContext.t :=
  {| FileContext.file_config := file_config;
     FileContext.processed_bytes := 0;
     FileContext.file_type_id := 0;
     FileContext.file_type_context := None;
     FileContext.file_signature_context := None;
     FileContext.sha256 := None;
     FileContext.file_name := None;
     FileContext.file_name_size := 0;
     FileContext.file_size := 0;
     FileContext.upload := false |}.

Definition depth_5 : FileConfig :=
  {| file_type_depth := 5; file_signature_depth := 5 |}.

(** A context that is past its depth of five bytes, with a digest in
    progress. *)
Definition past_depth_context : FileContext.t :=
  {| FileContext.file_config := Some depth_5;
     FileContext.processed_bytes := 10;
     FileContext.file_type_id := 0;
     FileContext.file_type_context := None;
     FileContext.file_signature_context :=
       Some (SHA256_Update (SHA256_Init zero_filled) bytes_ab 2);
     FileContext.sha256 := None;
     FileContext.file_name := None;
     FileContext.file_name_size := 0;
     FileContext.file_size := 0;
     FileContext.upload := false |}.

(** A classifier to run [file_type_id] on: it needs four bytes to decide,
    then answers type 7, and leaves a mark in its own pointer. *)
Definition four_byte_identifier : file_identifier :=
  {| SNORT_FILE_TYPE_UNKNOWN := 1403;
     SNORT_FILE_TYPE_CONTINUE := 0;
     find_file_type_id := fun _ _ data_size context =>
       (if (data_size <? 4)%Z then 0%Z else 7%Z,
        FileContext.set_file_type_context context (Some 1)) |}.

(** A context whose type is identified. *)
Definition identified_context : FileContext.t :=
  FileContext.set_file_type_id (new_context (Some depth_5)) 7.

End samples.

(** ** [ips_cvs.cc]: the option as the rule engine sees it *)

Module ips_cvs_api.
Import libc ips_cvs shape.

(** [strcmp] and [strcasecmp] on C strings, given without their
    terminating zero: the difference of the first pair of characters that
    differ, the end of a string counting as zero. *)
Fixpoint strcmp (a b : list byte) : Z :=
  match a, b with
  | [], [] => 0%Z
  | [], y :: _ => (- Z.of_nat (Byte.to_nat y))%Z
  | x :: _, [] => Z.of_nat (Byte.to_nat x)
  | x :: a', y :: b' =>
      if Byte.eqb x y then strcmp a' b'
      else (Z.of_nat (Byte.to_nat x) - Z.of_nat (Byte.to_nat y))%Z
  end.

Fixpoint strcasecmp (a b : list byte) : Z :=
  match a, b with
  | [], [] => 0%Z
  | [], y :: _ => (- Z.of_nat (Byte.to_nat (tolower y)))%Z
  | x :: _, [] => Z.of_nat (Byte.to_nat (tolower x))
  | x :: a', y :: b' =>
      if Byte.eqb (tolower x) (tolower y) then strcasecmp a' b'
      else (Z.of_nat (Byte.to_nat (tolower x))
            - Z.of_nat (Byte.to_nat (tolower y)))%Z
  end.

Definition s_name : list byte := list_byte_of_string "cvs".
Definition CVS_CONF_INVALID_ENTRY_STR : list byte :=
  list_byte_of_string "invalid-entry".

(** An option as [operator==] reads it: its name and, for an option of
    this name, its configuration. *)
Record IpsOption := {
  get_name : list byte;
  config : CvsRuleOption
}.

(** The constructor [CvsOption(c)]. *)
Definition CvsOption (c : CvsRuleOption) : IpsOption :=
  {| get_name := s_name; config := c |}.

(** [CvsOption::operator==]. *)
Definition operator_eq (this ips : IpsOption) : bool :=
  if negb (strcmp (get_name this) (get_name ips) =? 0)%Z then false
  else if (type (config this) =? type (config ips))%Z then true
  else false.

(** [cvs_parse], from the tokens that [mSplit] made of the rule arguments
    ([mSplit] is not under src/; [num_toks] is the length of [toks]).  The
    result is the option afterwards and whether [ParseError] was called.
    Modelled from the spec: [ParseError] reports the error and returns
    ("reported with context, does not crash the process"). *)
Definition cvs_parse (toks : list (list byte))
    (cvs_rule_option : CvsRuleOption) : CvsRuleOption * bool :=
  match length toks with
  | 1 =>
      if (strcasecmp (nth 0 toks []) CVS_CONF_INVALID_ENTRY_STR =? 0)%Z
      then ({| type := CVS_INVALID_ENTRY |}, false)
      else (cvs_rule_option, true)
  | _ => (cvs_rule_option, true)
  end.

(** [cvs_ctor]: the option is zeroed, parsed into, and copied. *)
Definition cvs_ctor (toks : list (list byte)) : IpsOption :=
  let cvs_rule_option := {| type := 0%Z |} in
  CvsOption (fst (cvs_parse toks cvs_rule_option)).

End ips_cvs_api.

(** ** [file_lib.cc]: file properties, names of types, printing *)

Module file_properties.
Import libc hashes file_lib.

Definition set_file_name (c : FileContext.t) (file_name : option (list byte))
    (name_size : Z) : FileContext.t :=
  {| FileContext.file_config := FileContext.file_config c;
     FileContext.processed_bytes := FileContext.processed_bytes c;
     FileContext.file_type_id := FileContext.file_type_id c;
     FileContext.file_type_context := FileContext.file_type_context c;
     FileContext.file_signature_context :=
       FileContext.file_signature_context c;
     FileContext.sha256 := FileContext.sha256 c;
     FileContext.file_name := file_name;
     FileContext.file_name_size := name_size;
     FileContext.file_size := FileContext.file_size c;
     FileContext.upload := FileContext.upload c |}.

Definition set_file_size (c : FileContext.t) (file_size : Z)
  : FileContext.t :=
  {| FileContext.file_config := FileContext.file_config c;
     FileContext.processed_bytes := FileContext.processed_bytes c;
     FileContext.file_type_id := FileContext.file_type_id c;
     FileContext.file_type_context := FileContext.file_type_context c;
     FileContext.file_signature_context :=
       FileContext.file_signature_context c;
     FileContext.sha256 := FileContext.sha256 c;
     FileContext.file_name := FileContext.file_name c;
     FileContext.file_name_size := FileContext.file_name_size c;
     FileContext.file_size := file_size;
     FileContext.upload := FileContext.upload c |}.

Definition set_upload (c : FileContext.t) (upload : bool) : FileContext.t :=
  {| FileContext.file_config := FileContext.file_config c;
     FileContext.processed_bytes := FileContext.processed_bytes c;
     FileContext.file_type_id := FileContext.file_type_id c;
     FileContext.file_type_context := FileContext.file_type_context c;
     FileContext.file_signature_context :=
       FileContext.file_signature_context c;
     FileContext.sha256 := FileContext.sha256 c;
     FileContext.file_name := FileContext.file_name c;
     FileContext.file_name_size := FileContext.file_name_size c;
     FileContext.file_size := FileContext.file_size c;
     FileContext.upload := upload |}.

(** The setters return the context that [context] points to afterwards
    ([None] for a null pointer). *)
Definition file_name_set (context : option FileContext.t)
    (file_name : option (list byte)) (name_size : Z)
  : option FileContext.t :=
  match context with
  | None => None
  | Some context => Some (set_file_name context file_name name_size)
  end.

(** [file_name_get].  An output argument is [None] for a null pointer and
    [Some v] for a pointer to a place that holds [v]; the result is the
    return value and what the two places hold afterwards. *)
Definition file_name_get (context : option FileContext.t)
    (file_name : option (option (list byte))) (name_size : option Z)
  : Z * option (option (list byte)) * option Z :=
  match context with
  | None => (0%Z, file_name, name_size)
  | Some context =>
      match file_name with
      | None => (0%Z, file_name, name_size)
      | Some _ =>
          let file_name := Some (FileContext.file_name context) in
          match name_size with
          | None => (0%Z, file_name, name_size)
          | Some _ =>
              (1%Z, file_name, Some (FileContext.file_name_size context))
          end
      end
  end.

Definition file_size_set (context : option FileContext.t) (file_size : Z)
  : option FileContext.t :=
  match context with
  | None => None
  | Some context => Some (set_file_size context file_size)
  end.

Definition file_size_get (context : option FileContext.t) : Z :=
  match context with
  | None => 0%Z
  | Some context => FileContext.file_size context
  end.

Definition file_direction_set (context : option FileContext.t) (upload : bool)
  : option FileContext.t :=
  match context with
  | None => None
  | Some context => Some (set_upload context upload)
  end.

Definition file_direction_get (context : option FileContext.t) : bool :=
  match context with
  | None => false
  | Some context => FileContext.upload context
  end.

Definition file_sig_sha256_set (context : option FileContext.t)
    (signature : option (list byte)) : option FileContext.t :=
  match context with
  | None => None
  | Some context => Some (FileContext.set_sha256 context signature)
  end.

Definition file_sig_sha256_get (context : option FileContext.t)
  : option (list byte) :=
  match context with
  | None => None
  | Some context => FileContext.sha256 context
  end.

(** Modelled from the spec: [FileMagicRule] and
    [FileConfig::get_rule_from_id] ([file_identifier.h] and
    [file_config.h] are not under src/): a rule carries the name of its
    type, and the configuration gives the rule of an identifier when it
    has one. *)
Record FileMagicRule := { type_name : list byte }.

Class file_rules := {
  get_rule_from_id : FileConfig -> Z -> option FileMagicRule
}.

Definition unknown_file_type : list byte :=
  list_byte_of_string "Unknown file type, done".
Definition undecided_file_type : list byte :=
  list_byte_of_string "Undecided file type, continue...".

(** [file_info_from_ID]; the result is the string returned, [None] for
    [NULL]. *)
Definition file_info_from_ID {fid : file_identifier} {rules : file_rules}
    (conf : option FileConfig) (id : Z) : outcome (option (list byte)) :=
  let file_config := conf in
  if (SNORT_FILE_TYPE_UNKNOWN =? id)%Z then Done (Some unknown_file_type)
  else if (SNORT_FILE_TYPE_CONTINUE =? id)%Z
  then Done (Some undecided_file_type)
  else
    info <- arrow file_config (fun cfg => get_rule_from_id cfg id) ;;
    match info with
    | Some info => Done (Some (type_name info))
    | None => Done None
    end.

(** [%02X] of an [unsigned char]. *)
Definition hex_digit (n : nat) : byte :=
  match Byte.of_nat (if n <? 10 then 48 + n else 55 + n) with
  | Some b => b
  | None => x00
  end.

Definition printf_02X (b : byte) : list byte :=
  [hex_digit (Byte.to_nat b / 16); hex_digit (Byte.to_nat b mod 16)].

(** The groups ["%02X%02X"] of the format, [n] of them from [hash[i]] on,
    with a space between one group and the next. *)
Fixpoint printf_groups (hash : list byte) (i n : nat) : list byte :=
  match n with
  | 0 => []
  | S n' =>
      printf_02X (deref hash i) ++ printf_02X (deref hash (i + 1))
        ++ match n' with
           | 0 => []
           | S _ => " "%byte :: printf_groups hash (i + 2) n'
           end
  end.

(** [file_sha256_print]: the text it writes to the standard output. *)
Definition file_sha256_print (hash : list byte) : list byte :=
  list_byte_of_string "SHA256: " ++ printf_groups hash 0 16 ++ [x0a].

(** Reading the text back. *)
Definition hex_value (c : byte) : nat :=
  let n := Byte.to_nat c in if n <? 58 then n - 48 else n - 55.

Definition byte_of_hex (hi lo : byte) : byte :=
  match Byte.of_nat (16 * hex_value hi + hex_value lo) with
  | Some b => b
  | None => x00
  end.

Fixpoint read_groups (n : nat) (text : list byte) : list byte :=
  match n, text with
  | S n', a :: b :: c :: d :: rest =>
      byte_of_hex a b :: byte_of_hex c d :: read_groups n' (tl rest)
  | _, _ => []
  end.

Definition read_sha256 (text : list byte) : list byte :=
  read_groups 16 (skipn 8 text).

End file_properties.

(** ** What a call leaves behind *)

Module readings.
Import hashes file_lib samples.

(** [context->file_type_id] when a call is over: the type that the call
    left in the context, if it ran to its end on a context. *)
Definition stored_type (o : outcome (option FileContext.t)) : option Z :=
  match o with
  | Done (Some context) => Some (FileContext.file_type_id context)
  | _ => None
  end.

(** Every field of [c'] but [file_type_id] is the field of [c]. *)
Definition same_but_type (c c' : FileContext.t) : Prop :=
  FileContext.file_config c' = FileContext.file_config c /\
  FileContext.processed_bytes c' = FileContext.processed_bytes c /\
  FileContext.file_type_context c' = FileContext.file_type_context c /\
  FileContext.file_signature_context c'
  = FileContext.file_signature_context c /\
  FileContext.sha256 c' = FileContext.sha256 c /\
  FileContext.file_name c' = FileContext.file_name c /\
  FileContext.file_name_size c' = FileContext.file_name_size c /\
  FileContext.file_size c' = FileContext.file_size c /\
  FileContext.upload c' = FileContext.upload c.

(** The fields that no accessor of the file properties writes are in
    [c'] what they are in [c]. *)
Definition processing_state_kept (c c' : FileContext.t) : Prop :=
  FileContext.file_config c' = FileContext.file_config c /\
  FileContext.processed_bytes c' = FileContext.processed_bytes c /\
  FileContext.file_type_id c' = FileContext.file_type_id c /\
  FileContext.file_type_context c' = FileContext.file_type_context c /\
  FileContext.file_signature_context c'
  = FileContext.file_signature_context c.




(** A depth of [2^31] bytes, one more than the largest [int]. *)
Definition depth_2_31 : FileConfig :=
  {| file_type_depth := 2147483648; file_signature_depth := 2147483648 |}.

End readings.

Import libc ips_cvs hashes file_lib shape samples.
Import ips_cvs_api file_properties readings.

(* ====================================================================== *)
(** * Part II.  Properties                                                 *)
(* ====================================================================== *)

(** ** The program, run *)

Example CvsGetCommand_entry_line :
  CvsGetCommand unchanged_payload (Some 0) 19 =
  {| cmd_str := Some 0; cmd_str_len := 5;
     cmd_arg := Some 6; cmd_arg_len := 13 |}.
Proof. reflexivity. Qed.

Example CvsDecode_unchanged_scenario :
  CvsDecode unchanged_payload (length unchanged_payload)
    invalid_entry_option = Some CVS_NO_ALERT.
Proof. reflexivity. Qed.

Example CvsDecode_modified_scenario :
  CvsDecode modified_payload (length modified_payload)
    invalid_entry_option = Some CVS_ALERT.
Proof. reflexivity. Qed.

Example eval_modified_scenario :
  eval invalid_entry_option
    (Some {| tcph := Some tt; data := Some modified_payload; dsize := 30 |})
  = Some DETECTION_OPTION_MATCH.
Proof. reflexivity. Qed.

(** The test vector of FIPS 180-4 for ["abc"], and a message of more than
    one block. *)
Example SHA256_abc :
  map Z_of_byte (SHA256 (list_byte_of_string "abc")) =
  [ 186; 120; 22; 191; 143; 1; 207; 234; 65; 65; 64; 222; 93; 174; 34;
     35; 176; 3; 97; 163; 150; 23; 122; 156; 180; 16; 255; 97; 242; 0;
     21; 173 ]%Z.
Proof. vm_compute. reflexivity. Qed.

Example SHA256_two_blocks :
  map Z_of_byte (SHA256 (repeat "a"%byte 100)) =
  [ 40; 22; 89; 120; 136; 228; 160; 211; 163; 107; 130; 184; 51; 22;
     171; 50; 104; 14; 184; 240; 15; 140; 211; 185; 4; 214; 129; 36;
     109; 40; 90; 14 ]%Z.
Proof. vm_compute. reflexivity. Qed.

Example SHA256_in_three_calls :
  fst (SHA256_Final
         (SHA256_Update
            (SHA256_Update
               (SHA256_Update (SHA256_Init zero_filled)
                  (repeat "a"%byte 30) 30)
               (repeat "a"%byte 60) 60)
            (repeat "a"%byte 10) 10))
  = SHA256 (repeat "a"%byte 100).
Proof. vm_compute. reflexivity. Qed.

Example depth_limit_past_depth :
  get_data_size_from_depth_limit past_depth_context SNORT_FILE_TYPE_ID 2
  = (-1)%Z.
Proof. reflexivity. Qed.

(** ** Bytes, ranges and [memchr] *)

(** The test of a loop, when arithmetic decides it. *)
Ltac loop_test_false :=
  match goal with
  | |- context [?a <? ?b] =>
      replace (a <? b) with false by (symmetry; apply Nat.ltb_ge; lia)
  end.

Ltac loop_test_true :=
  match goal with
  | |- context [?a <? ?b] =>
      replace (a <? b) with true by (symmetry; apply Nat.ltb_lt; lia)
  end.

Lemma byte_eqb_true (a b : byte) : Byte.eqb a b = true <-> a = b.
Proof.
  split; [apply Byte.byte_dec_bl | apply Byte.byte_dec_lb].
Qed.

Lemma byte_eqb_false (a b : byte) : Byte.eqb a b = false <-> a <> b.
Proof.
  split.
  - apply Byte.eqb_false.
  - intros Hne. destruct (Byte.eqb a b) eqn:E; trivial.
    apply byte_eqb_true in E. contradiction.
Qed.

Lemma range_nil buf a e : e <= a -> range buf a e = [].
Proof.
  intros H. unfold range. replace (e - a) with 0 by lia. reflexivity.
Qed.

Lemma skipn_deref buf a :
  a < length buf -> skipn a buf = deref buf a :: skipn (S a) buf.
Proof.
  revert buf. induction a as [|a IH]; intros [|b buf] H; simpl in *;
    try lia; trivial.
  rewrite IH by lia. reflexivity.
Qed.

Lemma range_cons buf a e :
  a < e -> e <= length buf ->
  range buf a e = deref buf a :: range buf (S a) e.
Proof.
  intros Hlt Hle. unfold range.
  rewrite (skipn_deref buf a) by lia.
  replace (e - a) with (S (e - S a)) by lia. reflexivity.
Qed.

Lemma range_length buf a e :
  e <= length buf -> length (range buf a e) = e - a.
Proof.
  intros H. unfold range. rewrite length_firstn, length_skipn. lia.
Qed.

Lemma firstn_plus (A : Type) (m n : nat) : forall l : list A,
  firstn (m + n) l = firstn m l ++ firstn n (skipn m l).
Proof.
  induction m as [|m IH]; intros [|x l]; simpl; trivial.
  - now rewrite firstn_nil.
  - now rewrite IH.
Qed.

Lemma range_split buf a p e :
  a <= p -> p <= e -> range buf a e = range buf a p ++ range buf p e.
Proof.
  intros H1 H2. unfold range.
  replace (e - a) with ((p - a) + (e - p)) by lia.
  rewrite firstn_plus, skipn_skipn.
  replace (p - a + a) with p by lia. reflexivity.
Qed.

Lemma range_firstn buf n : range buf 0 n = firstn n buf.
Proof.
  unfold range. simpl. rewrite Nat.sub_0_r. reflexivity.
Qed.

(** What [memchr] finds, read on the range it searches. *)
Lemma memchr_range buf c n : forall s,
  s + n <= length buf ->
  match memchr buf s c n with
  | None => ~ In c (range buf s (s + n))
  | Some p => s <= p < s + n /\ deref buf p = c /\ ~ In c (range buf s p)
  end.
Proof.
  induction n as [|n IH]; intros s Hle; simpl.
  - rewrite range_nil by lia. auto.
  - destruct (Byte.eqb (deref buf s) c) eqn:E.
    + apply byte_eqb_true in E. rewrite range_nil by lia.
      repeat split; auto; lia.
    + apply byte_eqb_false in E.
      specialize (IH (S s)). destruct (memchr buf (S s) c n) as [p|].
      * destruct IH as (Hp & Hc & Hn); [lia|].
        repeat split; try lia; trivial.
        rewrite range_cons by lia. intros [H|H]; auto.
      * rewrite range_cons by lia.
        replace (s + S n) with (S s + n) by lia.
        intros [H|H]; auto. apply IH; auto. lia.
Qed.

(** The range that [memchr] searched, cut at the byte it found. *)
Lemma memchr_found buf c s e p :
  e <= length buf -> s <= e ->
  memchr buf s c (e - s) = Some p ->
  s <= p < e /\
  range buf s e = range buf s p ++ c :: range buf (S p) e /\
  ~ In c (range buf s p).
Proof.
  intros Hle Hse Hm.
  pose proof (memchr_range buf c (e - s) s) as H.
  rewrite Hm in H. destruct H as (Hp & Hc & Hn); [lia|].
  repeat split; try lia; trivial.
  rewrite (range_split buf s p e) by lia.
  f_equal. rewrite range_cons by lia. now rewrite Hc.
Qed.

Lemma memchr_not_found buf c s e :
  e <= length buf -> s <= e ->
  memchr buf s c (e - s) = None -> ~ In c (range buf s e).
Proof.
  intros Hle Hse Hm.
  pose proof (memchr_range buf c (e - s) s) as H.
  rewrite Hm in H. replace (s + (e - s)) with e in H by lia.
  apply H. lia.
Qed.

(** ** [CvsValidateEntry] *)

Lemma count_sep_app l1 l2 : count_sep (l1 ++ l2) = count_sep l1 + count_sep l2.
Proof. apply count_occ_app. Qed.

Lemma count_sep_none l : ~ In "/"%byte l -> count_sep l = 0.
Proof. intros H. now apply count_occ_not_In. Qed.

Lemma count_sep_cut pre r :
  ~ In "/"%byte pre -> count_sep (pre ++ "/"%byte :: r) = S (count_sep r).
Proof.
  intros H. rewrite count_sep_app, (count_sep_none pre H). reflexivity.
Qed.

Lemma byte_after_sep_cut k pre r :
  ~ In "/"%byte pre ->
  byte_after_sep (S k) (pre ++ "/"%byte :: r) = byte_after_sep k r.
Proof.
  induction pre as [|b pre IH]; intros H; simpl.
  - reflexivity.
  - destruct (Byte.eqb b "/") eqn:E.
    + apply byte_eqb_true in E. subst b. exfalso. apply H. now left.
    + apply IH. intros Hin. apply H. now right.
Qed.

(** Reading on to the next separator leaves the same to check, provided
    the byte right after a third separator was ['/'] or ['+']. *)
Lemma entry_ok_from_step s pre r :
  ~ In "/"%byte pre ->
  (s = 3 -> slash_or_plus (hd "/"%byte pre) = true) ->
  entry_ok_from s (pre ++ "/"%byte :: r) = entry_ok_from (S s) r.
Proof.
  intros Hpre H3. unfold entry_ok_from.
  rewrite (count_sep_cut pre r Hpre).
  replace (s + S (count_sep r)) with (S s + count_sep r) by lia.
  f_equal.
  destruct (Nat.lt_trichotomy s 3) as [Hlt|[Heq|Hgt]].
  - replace (s <=? 3) with true by (symmetry; apply Nat.leb_le; lia).
    replace (S s <=? 3) with true by (symmetry; apply Nat.leb_le; lia).
    replace (3 - s) with (S (3 - S s)) by lia.
    now rewrite byte_after_sep_cut.
  - subst s. specialize (H3 eq_refl). simpl.
    destruct pre as [|b pre]; simpl in *; trivial.
  - replace (s <=? 3) with false by (symmetry; apply Nat.leb_gt; lia).
    replace (S s <=? 3) with false by (symmetry; apply Nat.leb_gt; lia).
    reflexivity.
Qed.

Lemma entry_ok_from_no_sep s l :
  ~ In "/"%byte l -> entry_ok_from s l = (s =? 5).
Proof.
  intros Hl. unfold entry_ok_from.
  rewrite (count_sep_none l Hl), Nat.add_0_r.
  destruct (Nat.eqb_spec s 5) as [->|Hne]; simpl; trivial.
Qed.

(** The loop of [CvsValidateEntry] decides [entry_ok_from], within the
    fuel that the length of the range gives. *)
Lemma CvsValidateEntry_loop_spec buf e : e <= length buf ->
  forall fuel a s, e - a <= fuel ->
  match CvsValidateEntry_loop fuel buf a e s with
  | Some (Returned ret) =>
      ret = CVS_ENTRY_INVALID /\ entry_ok_from s (range buf a e) = false
  | Some (Fell s') => (s' =? 5) = entry_ok_from s (range buf a e)
  | None => False
  end.
Proof.
  intros Hle. induction fuel as [|fuel IH]; intros a s Hfuel.
  - simpl. loop_test_false.
    rewrite range_nil by lia. symmetry.
    apply entry_ok_from_no_sep. simpl. auto.
  - cbn [CvsValidateEntry_loop].
    destruct (Nat.ltb_spec a e) as [Hlt|Hge].
    2:{ rewrite range_nil by lia. symmetry.
        apply entry_ok_from_no_sep. simpl. auto. }
    cbv zeta.
    destruct ((s =? 3)
              && (negb (Byte.eqb (deref buf a) "/")
                  && negb (Byte.eqb (deref buf a) "+"))) eqn:Echeck.
    + (* the byte after the third separator is neither '/' nor '+' *)
      apply andb_true_iff in Echeck. destruct Echeck as (Es & Ec).
      apply Nat.eqb_eq in Es. subst s. split; trivial.
      rewrite range_cons by lia. unfold entry_ok_from. simpl.
      unfold slash_or_plus. apply andb_true_iff in Ec.
      destruct Ec as (E1 & E2). apply negb_true_iff in E1, E2.
      rewrite E1, E2. apply andb_false_r.
    + assert (H3 : s = 3 -> slash_or_plus (deref buf a) = true).
      { intros ->. simpl in Echeck. unfold slash_or_plus.
        destruct (Byte.eqb (deref buf a) "/"),
                 (Byte.eqb (deref buf a) "+"); simpl in *; congruence. }
      destruct (Byte.eqb (deref buf a) "/") eqn:Eslash; cbn [negb].
      * (* on a separator *)
        apply byte_eqb_true in Eslash.
        specialize (IH (a + 1) (s + 1)).
        replace (a + 1) with (S a) in * by lia.
        replace (s + 1) with (S s) in * by lia.
        rewrite range_cons by lia. rewrite Eslash.
        pose proof (entry_ok_from_step s [] (range buf (S a) e)) as Hstep.
        simpl in Hstep. rewrite Hstep; auto.
        apply IH. lia.
      * (* skip to the next separator *)
        apply byte_eqb_false in Eslash.
        destruct (memchr buf a "/" (e - a)) as [p|] eqn:Em.
        -- destruct (memchr_found buf "/" a e p Hle (Nat.lt_le_incl _ _ Hlt) Em)
             as (Hp & Hcut & Hno).
           specialize (IH (p + 1) (s + 1)).
           replace (p + 1) with (S p) in * by lia.
           replace (s + 1) with (S s) in * by lia.
           rewrite Hcut, entry_ok_from_step; trivial.
           ++ apply IH. lia.
           ++ intros Hs. assert (a < p).
              { destruct (Nat.eq_dec a p) as [->|]; [|lia].
                pose proof (memchr_range buf "/" (e - p) p) as M.
                rewrite Em in M. destruct M as (_ & M & _); [lia|].
                contradiction. }
              rewrite range_cons by lia. simpl. auto.
        -- pose proof (memchr_not_found buf "/" a e Hle
                         (Nat.lt_le_incl _ _ Hlt) Em) as Hno.
           symmetry. now apply entry_ok_from_no_sep.
Qed.

Lemma slash_or_plus_true b :
  slash_or_plus b = true <-> b = "/"%byte \/ b = "+"%byte.
Proof.
  unfold slash_or_plus. rewrite orb_true_iff, !byte_eqb_true. tauto.
Qed.

Lemma entry_ok_from_start l :
  entry_ok_from 0 l = true <-> well_formed_entry l.
Proof.
  unfold entry_ok_from, well_formed_entry. simpl.
  rewrite andb_true_iff, Nat.eqb_eq.
  destruct (byte_after_sep 3 l) as [b|].
  - rewrite slash_or_plus_true. split; intros (H1 & H2); split; trivial.
    + destruct H2 as [->| ->]; auto.
    + destruct H2 as [H2|H2]; injection H2; auto.
  - split; intros (H1 & H2); [discriminate|].
    destruct H2; discriminate.
Qed.

(** [CvsValidateEntry] on a range of the payload, in one equation. *)
Lemma CvsValidateEntry_range buf a e :
  e <= length buf ->
  CvsValidateEntry buf (Some a) (Some e) =
  Some (if entry_ok_from 0 (range buf a e)
        then CVS_ENTRY_VALID else CVS_ENTRY_INVALID).
Proof.
  intros Hle. unfold CvsValidateEntry.
  pose proof (CvsValidateEntry_loop_spec buf e Hle (e - a) a 0 (le_n _)) as H.
  destruct (CvsValidateEntry_loop (e - a) buf a e 0) as [[ret|s']|].
  - destruct H as (-> & ->). reflexivity.
  - rewrite <- H. now destruct (s' =? 5).
  - contradiction.
Qed.

(** C1 (as amended).  For a range of the payload, [CvsValidateEntry]
    answers valid exactly when the range holds exactly five ['/'] and the
    byte right after the third is ['/'] or ['+'], and invalid in every
    other case, the empty range included; only a null pointer, at either
    end, is valid with nothing to check. *)
Theorem CvsValidateEntry_valid_iff buf a e :
  e <= length buf ->
  (CvsValidateEntry buf (Some a) (Some e) = Some CVS_ENTRY_VALID
   <-> well_formed_entry (range buf a e)) /\
  (CvsValidateEntry buf (Some a) (Some e) = Some CVS_ENTRY_INVALID
   <-> ~ well_formed_entry (range buf a e)) /\
  CvsValidateEntry buf None (Some e) = Some CVS_ENTRY_VALID /\
  CvsValidateEntry buf (Some a) None = Some CVS_ENTRY_VALID /\
  CvsValidateEntry buf None None = Some CVS_ENTRY_VALID.
Proof.
  intros Hle. rewrite (CvsValidateEntry_range buf a e Hle).
  rewrite <- entry_ok_from_start.
  destruct (entry_ok_from 0 (range buf a e)); repeat split;
    try reflexivity; try discriminate; congruence.
Qed.

Lemma CvsValidateEntry_valid_iff_witness :
  13 <= length entry_arg_sample /\
  CvsValidateEntry entry_arg_sample (Some 0) (Some 13)
  = Some CVS_ENTRY_VALID.
Proof.
  split.
  - vm_compute. lia.
  - destruct (CvsValidateEntry_valid_iff entry_arg_sample 0 13)
      as ((_ & H) & _).
    + vm_compute. lia.
    + apply H. vm_compute. split; [reflexivity | left; reflexivity].
Defined.

(** C1 as the specification words it fails on the empty argument: in
    [empty_entry_payload] the argument of the first line is the empty
    range at offset 6, and it is invalid. *)

Lemma CvsValidateEntry_empty_invalid :
  cmd_arg (CvsGetCommand empty_entry_payload (Some 0) 6) = Some 6 /\
  cmd_arg_len (CvsGetCommand empty_entry_payload (Some 0) 6) = 0 /\
  range empty_entry_payload 6 6 = [] /\
  CvsValidateEntry empty_entry_payload (Some 6) (Some 6)
  = Some CVS_ENTRY_INVALID /\
  CvsValidateEntry empty_entry_payload (Some 6) (Some 6)
  <> Some CVS_ENTRY_VALID.
Proof.
  repeat split; try reflexivity. vm_compute. discriminate.
Qed.

(** ** Lines and commands *)

(** A list is cut at the first occurrence of a byte in one way only. *)
Lemma app_cut_first (c : byte) : forall l1 r1 l2 r2,
  ~ In c l1 ->
  l1 ++ c :: r1 = l2 ++ c :: r2 ->
  (l1 = l2 /\ r1 = r2) \/ exists m, l2 = l1 ++ c :: m /\ r1 = m ++ c :: r2.
Proof.
  induction l1 as [|a l1 IH]; intros r1 l2 r2 Hno Heq.
  - destruct l2 as [|x l2]; simpl in Heq; inversion Heq; subst.
    + left. auto.
    + right. exists l2. auto.
  - destruct l2 as [|x l2]; simpl in Heq; inversion Heq; subst.
    + exfalso. apply Hno. left. auto.
    + destruct (IH r1 l2 r2) as [(-> & ->)|(m & -> & ->)]; trivial.
      * intros Hin. apply Hno. now right.
      * left. auto.
      * right. exists m. auto.
Qed.

Lemma app_cut_unique (c : byte) l1 r1 l2 r2 :
  ~ In c l1 -> ~ In c l2 ->
  l1 ++ c :: r1 = l2 ++ c :: r2 -> l1 = l2 /\ r1 = r2.
Proof.
  intros H1 H2 Heq.
  destruct (app_cut_first c l1 r1 l2 r2 H1 Heq) as [H|(m & -> & _)]; trivial.
  exfalso. apply H2. apply in_or_app. right. now left.
Qed.

Lemma to_nat_inj (a b : byte) : Byte.to_nat a = Byte.to_nat b -> a = b.
Proof.
  intros H. pose proof (Byte.of_to_nat a) as Ha.
  rewrite H, Byte.of_to_nat in Ha. now injection Ha.
Qed.

Lemma memcmp_range buf : forall n s1 s2,
  length s2 = n -> s1 + n <= length buf ->
  (memcmp buf s1 s2 n = 0%Z <-> range buf s1 (s1 + n) = s2).
Proof.
  induction n as [|n IH]; intros s1 s2 Hlen Hle; simpl.
  - destruct s2; [|discriminate]. rewrite range_nil by lia. tauto.
  - destruct s2 as [|b s2]; [discriminate|]. simpl.
    rewrite range_cons by lia.
    replace (s1 + S n) with (S s1 + n) by lia.
    destruct (Byte.eqb (deref buf s1) b) eqn:E.
    + apply byte_eqb_true in E. rewrite E.
      rewrite IH by (simpl in *; lia).
      split; [intros ->; trivial | intros H; now injection H].
    + apply byte_eqb_false in E. split.
      * intros H. exfalso. apply E. apply to_nat_inj. lia.
      * intros H. injection H as H _. contradiction.
Qed.

Lemma CvsCmdCompare_range cmd buf p len :
  p + len <= length buf ->
  (CvsCmdCompare cmd buf p len = 0%Z <-> range buf p (p + len) = cmd).
Proof.
  intros Hle. unfold CvsCmdCompare, strlen.
  destruct (Nat.eqb_spec len (length cmd)) as [Hlen|Hlen]; simpl.
  - rewrite <- (memcmp_range buf len p cmd) by auto.
    destruct (memcmp buf p cmd len =? 0)%Z eqn:E.
    + apply Z.eqb_eq in E. tauto.
    + apply Z.eqb_neq in E. split; [discriminate | contradiction].
  - split; [discriminate|]. intros H. exfalso. apply Hlen.
    rewrite <- H, range_length by lia. lia.
Qed.

(** [CvsGetEOL] cuts the rest of the payload at its first delimiter. *)
Lemma CvsGetEOL_range buf line end_ :
  line <= end_ -> end_ <= length buf ->
  let '(eol, eolm) := CvsGetEOL buf line end_ in
  (eol = end_ /\ eolm = end_ /\
   ~ In CVS_COMMAND_DELIMITER (range buf line end_))
  \/
  (eol = eolm + 1 /\ line <= eolm < end_ /\
   range buf line end_ =
     range buf line eolm ++ CVS_COMMAND_DELIMITER :: range buf eol end_ /\
   ~ In CVS_COMMAND_DELIMITER (range buf line eolm)).
Proof.
  intros H1 H2. unfold CvsGetEOL.
  destruct (memchr buf line CVS_COMMAND_DELIMITER (end_ - line)) as [p|] eqn:E.
  - right. destruct (memchr_found buf _ line end_ p H2 H1 E) as (Hp & Hc & Hn).
    replace (p + 1) with (S p) by lia. auto.
  - left. repeat split. now apply memchr_not_found.
Qed.

(** [CvsGetCommand] cuts a line at its first separator. *)
Lemma CvsGetCommand_range buf line e :
  line <= e -> e <= length buf ->
  let c := CvsGetCommand buf (Some line) e in
  cmd_str c = Some line /\
  ((cmd_arg c = None /\ cmd_arg_len c = 0 /\
    ~ In CVS_COMMAND_SEPARATOR (range buf line e))
   \/
   (exists cmd_end,
      line <= cmd_end < e /\
      cmd_str_len c = cmd_end - line /\
      cmd_arg c = Some (cmd_end + 1) /\
      cmd_arg_len c = e - cmd_end - 1 /\
      range buf line e =
        range buf line cmd_end
          ++ CVS_COMMAND_SEPARATOR :: range buf (cmd_end + 1) e /\
      ~ In CVS_COMMAND_SEPARATOR (range buf line cmd_end))).
Proof.
  intros H1 H2. unfold CvsGetCommand.
  destruct (memchr buf line CVS_COMMAND_SEPARATOR (e - line)) as [p|] eqn:E;
    simpl; split; trivial.
  - right. exists p.
    destruct (memchr_found buf _ line e p H2 H1 E) as (Hp & Hc & Hn).
    replace (p + 1) with (S p) by lia. auto 10.
  - left. repeat split. now apply memchr_not_found.
Qed.

(** One pass through the body of the loop: it alerts exactly on a
    malformed Entry line that more data follows, and otherwise goes on to
    the next line. *)
Lemma CvsDecode_body_spec buf line end_ opt :
  line < end_ -> end_ <= length buf -> type opt = CVS_INVALID_ENTRY ->
  let '(eol, eolm) := CvsGetEOL buf line end_ in
  (malformed_entry_line is_Entry (range buf line eolm) /\ eol < end_ /\
   CvsDecode_body buf line end_ opt = Some (inl CVS_ALERT))
  \/
  (~ (malformed_entry_line is_Entry (range buf line eolm) /\ eol < end_) /\
   CvsDecode_body buf line end_ opt = Some (inr eol)).
Proof.
  intros Hlt Hle Htype.
  pose proof (CvsGetEOL_range buf line end_ (Nat.lt_le_incl _ _ Hlt) Hle) as G.
  unfold CvsDecode_body.
  destruct (CvsGetEOL buf line end_) as [eol eolm].
  assert (Hm : line <= eolm <= end_) by (destruct G as [G|G]; lia).
  destruct (CvsGetCommand_range buf line eolm) as (Hstr & Hcmd);
    try lia.
  rewrite Hstr, Htype, Z.eqb_refl.
  destruct Hcmd as [(Harg & Hlen & Hno)|(p & Hp & Hslen & Harg & Hlen & Hcut & Hno)].
  - (* no separator: the argument is null *)
    right. split.
    + intros ((name & arg & Heq & _) & _). apply Hno. rewrite Heq.
      apply in_or_app. right. now left.
    + rewrite Harg, Hlen. simpl.
      now destruct (CvsCmdCompare CVS_ENTRY_STR buf line _ =? 0)%Z.
  - rewrite Harg, Hlen, Hslen. simpl ptr_add.
    replace (p + 1 + (eolm - p - 1)) with eolm by lia.
    rewrite CvsValidateEntry_range by lia.
    pose proof (CvsCmdCompare_range CVS_ENTRY_STR buf line (p - line)) as Hc.
    replace (line + (p - line)) with p in Hc by lia.
    pose proof (entry_ok_from_start (range buf (p + 1) eolm)) as Hwf.
    assert (Hline : malformed_entry_line is_Entry (range buf line eolm) <->
                    range buf line p = CVS_ENTRY_STR /\
                    ~ well_formed_entry (range buf (p + 1) eolm)).
    { split.
      - intros (name & arg & Heq & Hn & Hname & Harg').
        rewrite Hcut in Heq.
        destruct (app_cut_unique _ _ _ _ _ Hno Hn Heq) as (-> & ->).
        auto.
      - intros (Hname & Harg'). exists (range buf line p), (range buf (p + 1) eolm).
        auto. }
    destruct (CvsCmdCompare CVS_ENTRY_STR buf line (p - line) =? 0)%Z eqn:Ecmp.
    + apply Z.eqb_eq in Ecmp. apply Hc in Ecmp; [|lia].
      destruct (entry_ok_from 0 (range buf (p + 1) eolm)) eqn:Eok; simpl.
      * right. split; trivial. intros (Hl & _). apply Hline in Hl.
        destruct Hl as (_ & Hl). apply Hl. now apply Hwf.
      * destruct (Nat.ltb_spec eol end_) as [Heol|Heol].
        -- left. repeat split; trivial. apply Hline. split; trivial.
           intros Hw. apply Hwf in Hw. congruence.
        -- right. split; trivial. intros (_ & Hl). lia.
    + apply Z.eqb_neq in Ecmp. right. split; trivial.
      intros (Hl & _). apply Hline in Hl. destruct Hl as (Hl & _).
      apply Ecmp. apply Hc; trivial. lia.
Qed.

(** ** [CvsDecode] *)

Lemma followed_needs_delimiter P rest :
  ~ In CVS_COMMAND_DELIMITER rest -> ~ malformed_entry_followed P rest.
Proof.
  intros Hno (pre & ln & post & -> & _). apply Hno.
  apply in_or_app. right. apply in_or_app. right. now left.
Qed.

(** The lines of a payload, one at a time. *)
Lemma followed_first_line P ln rest :
  ~ In CVS_COMMAND_DELIMITER ln ->
  (malformed_entry_followed P (ln ++ CVS_COMMAND_DELIMITER :: rest) <->
   (malformed_entry_line P ln /\ rest <> []) \/
   malformed_entry_followed P rest).
Proof.
  intros Hln. split.
  - intros (pre & l & post & Heq & Hpre & Hl & Hline & Hpost).
    destruct Hpre as [->|(pre' & ->)].
    + simpl in Heq.
      destruct (app_cut_unique _ _ _ _ _ Hln Hl Heq) as (-> & ->). auto.
    + rewrite <- app_assoc in Heq. simpl in Heq. right.
      destruct (app_cut_first _ _ _ _ _ Hln Heq) as [(-> & ->)|(m & -> & ->)].
      * exists [], l, post. unfold ends_a_line. auto 6.
      * exists (m ++ [CVS_COMMAND_DELIMITER]), l, post.
        rewrite <- app_assoc. unfold ends_a_line. eauto 7.
  - intros [(Hline & Hrest)|(pre & l & post & -> & Hpre & Hl & Hline & Hpost)].
    + exists [], ln, rest. unfold ends_a_line. auto 6.
    + exists (ln ++ CVS_COMMAND_DELIMITER :: pre), l, post.
      rewrite <- app_assoc. simpl. repeat split; trivial.
      right. destruct Hpre as [->|(pre' & ->)].
      * now exists ln.
      * exists (ln ++ CVS_COMMAND_DELIMITER :: pre').
        now rewrite <- app_assoc.
Qed.

(** The loop of [CvsDecode], from any line start on, within the fuel that
    the rest of the payload gives. *)
Lemma CvsDecode_loop_spec buf end_ opt :
  end_ <= length buf -> type opt = CVS_INVALID_ENTRY ->
  forall fuel line, line <= end_ -> end_ - line <= fuel ->
  (CvsDecode_loop fuel buf line end_ opt = Some CVS_ALERT /\
   malformed_entry_followed is_Entry (range buf line end_))
  \/
  (CvsDecode_loop fuel buf line end_ opt = Some CVS_NO_ALERT /\
   ~ malformed_entry_followed is_Entry (range buf line end_)).
Proof.
  intros Hle Htype.
  assert (Hend : forall fuel,
             CvsDecode_loop fuel buf end_ end_ opt = Some CVS_NO_ALERT).
  { intros [|fuel]; simpl; now rewrite Nat.ltb_irrefl. }
  induction fuel as [|fuel IH]; intros line Hline Hfuel.
  - right. replace line with end_ by lia. split; [apply Hend|].
    rewrite range_nil by lia. apply followed_needs_delimiter. simpl. auto.
  - destruct (Nat.eq_dec line end_) as [->|Hne].
    { right. split; [apply Hend|].
      rewrite range_nil by lia. apply followed_needs_delimiter. simpl. auto. }
    assert (Hlt : line < end_) by lia.
    cbn [CvsDecode_loop].
    loop_test_true.
    pose proof (CvsDecode_body_spec buf line end_ opt Hlt Hle Htype) as B.
    pose proof (CvsGetEOL_range buf line end_ Hline Hle) as G.
    destruct (CvsGetEOL buf line end_) as [eol eolm].
    destruct G as [(-> & -> & Hno)|(-> & Hm & Hcut & Hno)].
    + (* the last line, with no delimiter *)
      destruct B as [(_ & B & _)|(_ & ->)]; [lia|].
      right. split; [apply Hend|]. now apply followed_needs_delimiter.
    + rewrite Hcut, (followed_first_line _ _ _ Hno).
      destruct B as [(Hl & Heol & ->)|(Hl & ->)].
      * left. split; trivial. left. split; trivial.
        intros Hnil. apply (f_equal (@length byte)) in Hnil.
        rewrite range_length in Hnil by lia. simpl in Hnil. lia.
      * destruct (IH (eolm + 1)) as [(-> & HM)|(-> & HM)]; try lia.
        -- left. auto.
        -- right. split; trivial. intros [(Hl' & Hrest)|HM']; auto.
           apply Hl. split; trivial.
           destruct (Nat.eq_dec (eolm + 1) end_) as [Heq|]; [|lia].
           exfalso. apply Hrest. apply range_nil. lia.
Qed.

(** C2 (as amended).  With the option set to invalid-entry, [CvsDecode]
    alerts exactly when some line of the payload is the command "Entry"
    (byte for byte, in this case of letters), a separator and an argument
    that is not a well-formed entry, and at least one byte follows the
    delimiter that ends the line; on every other payload it reaches the
    end of the buffer and does not alert. *)
Theorem CvsDecode_alert_iff data data_len opt :
  data_len <= length data -> type opt = CVS_INVALID_ENTRY ->
  (CvsDecode data data_len opt = Some CVS_ALERT <->
   malformed_entry_followed is_Entry (firstn data_len data)) /\
  (CvsDecode data data_len opt = Some CVS_NO_ALERT <->
   ~ malformed_entry_followed is_Entry (firstn data_len data)).
Proof.
  intros Hle Htype. unfold CvsDecode. rewrite <- range_firstn.
  destruct (CvsDecode_loop_spec data data_len opt Hle Htype data_len 0)
    as [(-> & HM)|(-> & HM)]; try lia.
  - split; split; trivial; try discriminate. contradiction.
  - split; split; trivial; try discriminate. contradiction.
Qed.

Lemma CvsDecode_alert_iff_witness :
  CvsDecode modified_payload 30 invalid_entry_option = Some CVS_ALERT /\
  malformed_entry_followed is_Entry (firstn 30 modified_payload).
Proof.
  split; [reflexivity|].
  apply (proj1 (CvsDecode_alert_iff modified_payload 30 invalid_entry_option
                  ltac:(vm_compute; lia) eq_refl)).
  reflexivity.
Defined.

(** C2 as the specification words it fails on a command name in another
    case of letters: the first line of [lowercase_payload] is, without
    regard to case, an Entry with a malformed argument, and a Modified
    line follows it, yet [CvsDecode] does not alert. *)

Lemma CvsDecode_is_case_sensitive :
  malformed_entry_followed is_Entry_nocase
    (firstn (length lowercase_payload) lowercase_payload) /\
  CvsDecode lowercase_payload (length lowercase_payload)
    invalid_entry_option = Some CVS_NO_ALERT.
Proof.
  split; [|reflexivity].
  exists [], (list_byte_of_string "entry /cvs.cXX1.5///"),
         (list_byte_of_string "Modified" ++ [CVS_COMMAND_DELIMITER]).
  split; [reflexivity|]. split; [now left|].
  split; [simpl; intuition discriminate|].
  split; [|discriminate].
  exists (list_byte_of_string "entry"), (list_byte_of_string "/cvs.cXX1.5///").
  split; [reflexivity|]. split; [simpl; intuition discriminate|].
  split; [reflexivity|].
  intros (H & _). vm_compute in H. discriminate.
Qed.

(** ** Termination of [CvsDecode] *)

Lemma memchr_bounds buf c : forall n s p,
  memchr buf s c n = Some p -> s <= p < s + n.
Proof.
  induction n as [|n IH]; intros s p H; simpl in H; [discriminate|].
  destruct (Byte.eqb (deref buf s) c).
  - injection H as <-. lia.
  - apply IH in H. lia.
Qed.

Lemma CvsValidateEntry_loop_total buf e : forall fuel a s,
  e - a <= fuel -> CvsValidateEntry_loop fuel buf a e s <> None.
Proof.
  induction fuel as [|fuel IH]; intros a s Hfuel; simpl.
  - loop_test_false.
    discriminate.
  - destruct (Nat.ltb_spec a e) as [Hlt|Hge]; [|discriminate].
    destruct (_ && _); [discriminate|].
    destruct (negb _).
    + destruct (memchr buf a "/" (e - a)) as [p|] eqn:E; [|discriminate].
      apply memchr_bounds in E. apply IH. lia.
    + apply IH. lia.
Qed.

Lemma CvsValidateEntry_total buf entry_arg end_arg :
  exists ret, CvsValidateEntry buf entry_arg end_arg = Some ret.
Proof.
  unfold CvsValidateEntry.
  destruct entry_arg as [a|], end_arg as [e|]; eauto.
  pose proof (CvsValidateEntry_loop_total buf e (e - a) a 0 (le_n _)) as H.
  destruct (CvsValidateEntry_loop (e - a) buf a e 0) as [[ret|s]|];
    [eauto | | contradiction].
  destruct (negb (s =? 5)); eauto.
Qed.

(** The end of line that [CvsGetEOL] computes is past the start of the
    line: one past the delimiter when there is one, the end of the buffer
    otherwise. *)
Lemma CvsGetEOL_advances buf line end_ :
  line < end_ ->
  line < fst (CvsGetEOL buf line end_) <= end_ /\
  line <= snd (CvsGetEOL buf line end_) <= end_ /\
  (snd (CvsGetEOL buf line end_) = end_ ->
   fst (CvsGetEOL buf line end_) = end_).
Proof.
  intros Hlt. unfold CvsGetEOL.
  destruct (memchr buf line CVS_COMMAND_DELIMITER (end_ - line)) as [p|] eqn:E;
    simpl.
  - apply memchr_bounds in E. lia.
  - lia.
Qed.

(** One pass through the body returns, or moves [line] forward. *)
Lemma CvsDecode_body_advances buf line end_ opt :
  line < end_ ->
  (exists ret, CvsDecode_body buf line end_ opt = Some (inl ret) /\
               (ret = CVS_ALERT \/ ret = CVS_NO_ALERT)) \/
  (exists eol, CvsDecode_body buf line end_ opt = Some (inr eol) /\
               eol = fst (CvsGetEOL buf line end_) /\ line < eol <= end_).
Proof.
  intros Hlt. pose proof (CvsGetEOL_advances buf line end_ Hlt) as (G & _).
  unfold CvsDecode_body.
  destruct (CvsGetEOL buf line end_) as [eol eolm]. simpl in G.
  destruct (cmd_str _); [|left; eauto].
  destruct (_ =? _)%Z; [|right; eauto].
  destruct (_ =? _)%Z; [|right; eauto].
  destruct (CvsValidateEntry_total buf
              (cmd_arg (CvsGetCommand buf (Some line) eolm))
              (ptr_add (cmd_arg (CvsGetCommand buf (Some line) eolm))
                 (cmd_arg_len (CvsGetCommand buf (Some line) eolm))))
    as (ret & ->).
  destruct (_ && _); [left|right]; eauto.
Qed.

Lemma CvsDecode_loop_total buf end_ opt : forall fuel line,
  end_ - line <= fuel ->
  exists ret, CvsDecode_loop fuel buf line end_ opt = Some ret /\
              (ret = CVS_ALERT \/ ret = CVS_NO_ALERT).
Proof.
  induction fuel as [|fuel IH]; intros line Hfuel; simpl.
  - loop_test_false. eauto.
  - destruct (Nat.ltb_spec line end_) as [Hlt|Hge]; [|eauto].
    destruct (CvsDecode_body_advances buf line end_ opt Hlt)
      as [(ret & -> & Hret)|(eol & -> & _ & Heol)]; [eauto|].
    apply IH. lia.
Qed.

(** C10.  [CvsDecode] returns for every buffer and every length: a pass
    through the body of its loop either returns or leaves [line] at the
    end of line that [CvsGetEOL] computed, which is strictly past the
    start of the line and not past the end of the buffer, so the
    [data_len] passes that the loop is given are enough. *)
Theorem CvsDecode_terminates data data_len opt :
  (exists ret, CvsDecode data data_len opt = Some ret /\
               (ret = CVS_ALERT \/ ret = CVS_NO_ALERT)) /\
  (forall line, line < data_len ->
     (exists ret, CvsDecode_body data line data_len opt = Some (inl ret)) \/
     (exists eol, CvsDecode_body data line data_len opt = Some (inr eol) /\
                  eol = fst (CvsGetEOL data line data_len) /\
                  line < eol <= data_len)).
Proof.
  split.
  - apply CvsDecode_loop_total. lia.
  - intros line Hlt.
    destruct (CvsDecode_body_advances data line data_len opt Hlt)
      as [(ret & H & _)|H]; eauto.
Qed.

(** ** The depth limiter *)

Lemma get_data_size_from_depth_limit_unfold context type data_size :
  get_data_size_from_depth_limit context type data_size =
  match configured_depth context type with
  | None => data_size
  | Some max_depth =>
      if (FileContext.processed_bytes context >? max_depth)%Z then (-1)%Z
      else if (to_uint64 (FileContext.processed_bytes context
                          + to_uint64 data_size) >? max_depth)%Z
      then to_int (to_uint64
                     (max_depth - FileContext.processed_bytes context))
      else data_size
  end.
Proof.
  unfold get_data_size_from_depth_limit, configured_depth.
  destruct (FileContext.file_config context) as [cfg|]; trivial.
Qed.

(** The limiter reads the configuration and the count of processed bytes,
    and nothing else of the context. *)
Lemma get_data_size_from_depth_limit_frame c c' type data_size :
  FileContext.file_config c' = FileContext.file_config c ->
  FileContext.processed_bytes c' = FileContext.processed_bytes c ->
  get_data_size_from_depth_limit c' type data_size =
  get_data_size_from_depth_limit c type data_size.
Proof.
  intros H1 H2. unfold get_data_size_from_depth_limit.
  now rewrite H1, H2.
Qed.




(** ** [file_type_id] *)

Section file_type_id_facts.
Context {fid : file_identifier}.

(** On a context whose type is undecided, a stop from the depth limiter
    makes the type unknown. *)
Lemma file_type_id_stop context file_data data_size position :
  FileContext.file_type_id context = SNORT_FILE_TYPE_CONTINUE ->
  (get_data_size_from_depth_limit context SNORT_FILE_TYPE_ID data_size < 0)%Z ->
  file_type_id (Some context) file_data data_size position =
  Done (Some (FileContext.set_file_type_id context SNORT_FILE_TYPE_UNKNOWN)).
Proof.
  intros Hcont Hneg. unfold file_type_id. simpl.
  rewrite Hcont, Z.eqb_refl. simpl.
  apply Z.ltb_lt in Hneg. now rewrite Hneg.
Qed.

(** What [set_file_type_id] writes is what [file_type_id] reads back,
    and it writes nothing else. *)
Lemma set_file_type_id_reads context v :
  FileContext.file_type_id (FileContext.set_file_type_id context v) = v /\
  same_but_type context (FileContext.set_file_type_id context v).
Proof. repeat split. Qed.

(** What [file_type_id] does with the last chunk of a file whose type is
    undecided, for a classifier that returns [r] when it is called on
    [given]. *)
Lemma file_type_id_last_chunk context file_data data_size position cfg
    given :
  FileContext.file_type_id context = SNORT_FILE_TYPE_CONTINUE ->
  FileContext.file_config context = Some cfg ->
  let limited :=
    get_data_size_from_depth_limit context SNORT_FILE_TYPE_ID data_size in
  (0 <= limited)%Z ->
  (position = SNORT_FILE_END /\ given = context) \/
  (position = SNORT_FILE_FULL /\
   given = FileContext.set_file_type_context context None) ->
  let r := find_file_type_id cfg file_data limited given in
  exists context',
    file_type_id (Some context) file_data data_size position
    = Done (Some context') /\
    FileContext.file_type_id context' = type_at_end_of_data (fst r) /\
    same_but_type (snd r) context'.
Proof.
  intros Hcont Hcfg limited Hpos Hcase r.
  assert (E : file_type_id (Some context) file_data data_size position
              = Done (Some (FileContext.set_file_type_id (snd r)
                              (type_at_end_of_data (fst r))))).
  { unfold file_type_id. simpl.
    rewrite Hcont, Z.eqb_refl. simpl. fold limited.
    apply Z.ltb_ge in Hpos. rewrite Hpos.
    unfold classify, type_at_end_of_data. rewrite Hcfg.
    destruct Hcase as [(-> & Hg)|(-> & Hg)]; subst r; rewrite Hg; simpl;
      now destruct (_ =? _)%Z. }
  eexists. split; [exact E|]. apply set_file_type_id_reads.
Qed.

(** C4.  On a context whose type is still undecided: when the depth
    limiter signals stop, [file_type_id] runs to its end, the type of
    the context is then unknown and every other field is as it was; when
    the limiter does not stop, and the position is the end of the file
    or the whole file, the type of the context is then what the
    classifier returned for the limited chunk, and unknown if the
    classifier returned undecided, the other fields being as the
    classifier left them (for the whole file the classifier's own
    pointer is cleared first). *)
Theorem file_type_id_concludes context file_data data_size position :
  FileContext.file_type_id context = SNORT_FILE_TYPE_CONTINUE ->
  let limited :=
    get_data_size_from_depth_limit context SNORT_FILE_TYPE_ID data_size in
  ((limited < 0)%Z ->
   exists context',
     file_type_id (Some context) file_data data_size position
     = Done (Some context') /\
     FileContext.file_type_id context' = SNORT_FILE_TYPE_UNKNOWN /\
     same_but_type context context')
  /\
  ((0 <= limited)%Z ->
   forall cfg, FileContext.file_config context = Some cfg ->
   (position = SNORT_FILE_END ->
    let r := find_file_type_id cfg file_data limited context in
    exists context',
      file_type_id (Some context) file_data data_size position
      = Done (Some context') /\
      (fst r = SNORT_FILE_TYPE_CONTINUE ->
       FileContext.file_type_id context' = SNORT_FILE_TYPE_UNKNOWN) /\
      (fst r <> SNORT_FILE_TYPE_CONTINUE ->
       FileContext.file_type_id context' = fst r) /\
      same_but_type (snd r) context')
   /\
   (position = SNORT_FILE_FULL ->
    let r := find_file_type_id cfg file_data limited
               (FileContext.set_file_type_context context None) in
    exists context',
      file_type_id (Some context) file_data data_size position
      = Done (Some context') /\
      (fst r = SNORT_FILE_TYPE_CONTINUE ->
       FileContext.file_type_id context' = SNORT_FILE_TYPE_UNKNOWN) /\
      (fst r <> SNORT_FILE_TYPE_CONTINUE ->
       FileContext.file_type_id context' = fst r) /\
      same_but_type (snd r) context')).
Proof.
  intros Hcont limited. split.
  - intros Hneg. eexists. split.
    + now apply file_type_id_stop.
    + apply set_file_type_id_reads.
  - intros Hpos cfg Hcfg.
    split; intros Hposition r;
      [ destruct (file_type_id_last_chunk context file_data data_size
                    position cfg context Hcont Hcfg Hpos
                    (or_introl (conj Hposition eq_refl)))
          as (c' & E & T & F)
      | destruct (file_type_id_last_chunk context file_data data_size
                    position cfg
                    (FileContext.set_file_type_context context None)
                    Hcont Hcfg Hpos (or_intror (conj Hposition eq_refl)))
          as (c' & E & T & F) ];
      fold limited in T, F; fold r in T, F;
      exists c'; (split; [exact E|]); (split; [|split]); trivial;
      intros Hr; rewrite T; unfold type_at_end_of_data;
      [ rewrite Hr; now rewrite Z.eqb_refl
      | destruct (Z.eqb_spec SNORT_FILE_TYPE_CONTINUE (fst r)); congruence
      | rewrite Hr; now rewrite Z.eqb_refl
      | destruct (Z.eqb_spec SNORT_FILE_TYPE_CONTINUE (fst r)); congruence ].
Qed.

(** C5.  Once the type of a context is anything but undecided,
    [file_type_id] returns at once for any chunk and position and leaves
    every field of the context as it was; so does any sequence of calls,
    and the type never becomes undecided again. *)
Theorem file_type_id_resolved_is_final context :
  FileContext.file_type_id context <> SNORT_FILE_TYPE_CONTINUE ->
  (forall file_data data_size position,
     file_type_id (Some context) file_data data_size position =
     Done (Some context)) /\
  (forall chunks, feed file_type_id (Some context) chunks =
                  Done (Some context)).
Proof.
  intros Hres.
  assert (H1 : forall file_data data_size position,
             file_type_id (Some context) file_data data_size position =
             Done (Some context)).
  { intros. unfold file_type_id. simpl.
    destruct (Z.eqb_spec SNORT_FILE_TYPE_CONTINUE
                (FileContext.file_type_id context)) as [E|E]; trivial.
    congruence. }
  split; trivial.
  induction chunks as [|c chunks IH]; simpl; trivial.
  now rewrite H1.
Qed.

(** C9, where the code departs from it.  [file_type_id] reads
    [context->file_config] before it tests [context], so a null context
    is read through and the call does not come to the return that the
    test guards; [file_signature_sha256] tests [context] first and
    returns with nothing done. *)
Theorem file_type_id_null_context file_data data_size position :
  file_type_id None file_data data_size position = NullDeref /\
  file_signature_sha256 None file_data data_size position = Done None.
Proof. split; reflexivity. Qed.

End file_type_id_facts.

(** The rest of C9 holds: [eval] answers no match for a null packet, a
    packet without TCP header, and a null or empty payload. *)
Lemma eval_absent_input config p :
  p = None \/
  (exists pkt, p = Some pkt /\
               (tcph pkt = None \/ data pkt = None \/ dsize pkt = 0)) ->
  eval config p = Some DETECTION_OPTION_NO_MATCH.
Proof.
  intros [->|(pkt & -> & H)]; trivial. unfold eval.
  destruct (tcph pkt), (data pkt); trivial.
  destruct H as [H|[H|H]]; try discriminate. now rewrite H.
Qed.

(** ** [file_signature_sha256] *)

(** C8.  When the depth limiter signals stop, [file_signature_sha256]
    changes nothing: the digest in progress and the final signature, like
    every other field, stay as they were, and nothing marks the signature
    as failed; whereas [file_type_id], on a stop for its own kind, sets
    an undecided type to unknown. *)
Theorem file_signature_sha256_stop_is_noop context file_data data_size
    position :
  (get_data_size_from_depth_limit context SNORT_FILE_SHA256 data_size < 0)%Z ->
  file_signature_sha256 (Some context) file_data data_size position =
  Done (Some context)
  /\
  forall fid : file_identifier,
    FileContext.file_type_id context = SNORT_FILE_TYPE_CONTINUE ->
    (get_data_size_from_depth_limit context SNORT_FILE_TYPE_ID data_size
     < 0)%Z ->
    file_type_id (Some context) file_data data_size position =
    Done (Some (FileContext.set_file_type_id context
                  SNORT_FILE_TYPE_UNKNOWN)).
Proof.
  intros H. split.
  - unfold file_signature_sha256. apply Z.ltb_lt in H. now rewrite H.
  - intros fid. apply file_type_id_stop.
Qed.

Lemma firstn_whole (d : list byte) :
  firstn (Z.to_nat (Z.of_nat (length d))) d = d.
Proof. rewrite Nat2Z.id. apply firstn_all. Qed.

Lemma no_limit_in_effect_frame c c' total :
  FileContext.file_config c' = FileContext.file_config c ->
  FileContext.processed_bytes c' = FileContext.processed_bytes c ->
  no_limit_in_effect c total -> no_limit_in_effect c' total.
Proof.
  intros H1 H2 H n Hn.
  rewrite (get_data_size_from_depth_limit_frame c c') by trivial. now apply H.
Qed.

(** *** The incremental digest *)

Lemma hash_blocks_app k : forall h x y,
  64 * k <= length x -> hash_blocks k h (x ++ y) = hash_blocks k h x.
Proof.
  induction k as [|k IH]; intros h x y Hlen; cbn [hash_blocks]; trivial.
  rewrite firstn_app, skipn_app.
  replace (64 - length x) with 0 by lia.
  rewrite firstn_0, skipn_0, app_nil_r. apply IH. rewrite length_skipn. lia.
Qed.

Lemma hash_blocks_add k : forall j h x,
  hash_blocks (k + j) h x =
  hash_blocks j (hash_blocks k h x) (skipn (64 * k) x).
Proof.
  induction k as [|k IH]; intros j h x.
  - reflexivity.
  - cbn [Nat.add hash_blocks]. rewrite IH, skipn_skipn.
    replace (64 * k + 64) with (64 * S k) by lia. reflexivity.
Qed.

Lemma blocks_of_app (m d : list byte) :
  length (m ++ d) / 64 =
  length m / 64
  + length (skipn (64 * (length m / 64)) m ++ d) / 64.
Proof.
  rewrite !length_app, length_skipn.
  pose proof (Nat.div_mod_eq (length m) 64) as E.
  replace (length m + length d)
    with (length m / 64 * 64 + (length m - 64 * (length m / 64) + length d))
    by lia.
  now rewrite Nat.div_add_l by lia.
Qed.

(** Hashing [m ++ d] block by block is hashing the blocks of [m], then
    the blocks of what [m] left over followed by [d]. *)
Lemma hash_blocks_resume h0 (m d : list byte) :
  let rest := skipn (64 * (length m / 64)) m ++ d in
  hash_blocks (length (m ++ d) / 64) h0 (m ++ d) =
  hash_blocks (length rest / 64) (hash_blocks (length m / 64) h0 m) rest /\
  skipn (64 * (length (m ++ d) / 64)) (m ++ d) =
  skipn (64 * (length rest / 64)) rest.
Proof.
  intros rest.
  assert (Hk : 64 * (length m / 64) <= length m)
    by (pose proof (Nat.div_mod_eq (length m) 64); lia).
  assert (Hrest : skipn (64 * (length m / 64)) (m ++ d) = rest).
  { unfold rest. rewrite skipn_app.
    replace (64 * (length m / 64) - length m) with 0 by lia. reflexivity. }
  rewrite blocks_of_app. fold rest. split.
  - rewrite hash_blocks_add, Hrest. now rewrite hash_blocks_app.
  - rewrite Nat.mul_add_distr_l, Nat.add_comm, <- skipn_skipn.
    now rewrite Hrest.
Qed.

Lemma absorbed_Init c : absorbed (SHA256_Init c) sha256_initial_hash_value [].
Proof. repeat split. Qed.

Lemma absorbed_Update c h0 m d :
  absorbed c h0 m ->
  absorbed (SHA256_Update c d (Z.of_nat (length d))) h0 (m ++ d).
Proof.
  intros (Hs & Hb & Hc). unfold SHA256_Update.
  rewrite firstn_whole, Hs, Hb, Hc.
  destruct (hash_blocks_resume h0 m d) as (E1 & E2).
  unfold absorbed. cbn [state buffer bitcount].
  split; [now symmetry|]. split; [now symmetry|].
  rewrite length_app. lia.
Qed.

Lemma absorbed_Final c h0 m :
  absorbed c h0 m -> fst (SHA256_Final c) = digest_from h0 m.
Proof.
  intros (Hs & Hb & Hc). unfold SHA256_Final, digest_from. cbn [fst].
  rewrite Hs, Hb, Hc.
  replace (Z.to_nat (8 * Z.of_nat (length m) / 8)) with (length m)
    by (rewrite Z.mul_comm, Z.div_mul by lia; now rewrite Nat2Z.id).
  destruct (hash_blocks_resume h0 m (padding (length m))) as (E1 & _).
  now rewrite E1.
Qed.

(** *** The calls, chunk by chunk *)

(** A call that the limiter lets through whole, position by position. *)
Lemma file_signature_sha256_through context d position total :
  no_limit_in_effect context total ->
  (Z.of_nat (length d) <= total)%Z ->
  let n := Z.of_nat (length d) in
  file_signature_sha256 (Some context) d n position =
  match position with
  | SNORT_FILE_START =>
      Done (Some (FileContext.set_file_signature_context context
                    (Some (SHA256_Update (SHA256_Init zero_filled) d n))))
  | SNORT_FILE_MIDDLE =>
      Done (Some (FileContext.set_file_signature_context context
                    (Some (SHA256_Update
                             (signature_context_or_alloc context) d n))))
  | SNORT_FILE_END =>
      Done (Some (finalize context
                    (SHA256_Update (signature_context_or_alloc context) d n)))
  | SNORT_FILE_FULL =>
      Done (Some (finalize context
                    (SHA256_Update (SHA256_Init zero_filled) d n)))
  | SNORT_FILE_POSITION_UNKNOWN => Done (Some context)
  end.
Proof.
  intros Hno Hd n. unfold file_signature_sha256. cbv zeta.
  rewrite !Hno by (unfold n; lia).
  replace (n <? 0)%Z with false by (symmetry; apply Z.ltb_ge; unfold n; lia).
  now destruct position.
Qed.

Lemma final_signature_finalize context c :
  final_signature (Done (Some (finalize context c)))
  = Some (fst (SHA256_Final c)).
Proof. reflexivity. Qed.

(** The middle chunks and the end chunk, fed to a context whose digest is
    in progress. *)
Lemma feed_middles_and_end total e : forall ms context c h0 m0,
  FileContext.file_signature_context context = Some c ->
  absorbed c h0 m0 ->
  no_limit_in_effect context total ->
  Forall (fun m => (Z.of_nat (length m) <= total)%Z) ms ->
  (Z.of_nat (length e) <= total)%Z ->
  final_signature
    (feed file_signature_sha256 (Some context)
       (map (fun m => chunk_of m SNORT_FILE_MIDDLE) ms
          ++ [chunk_of e SNORT_FILE_END]))
  = Some (digest_from h0 (m0 ++ concat ms ++ e)).
Proof.
  induction ms as [|m ms IH]; intros context c h0 m0 Hctx Habs Hno Hms He;
    cbn [feed map app chunk_of chunk_data chunk_size chunk_position concat].
  - rewrite (file_signature_sha256_through context e SNORT_FILE_END total)
      by trivial.
    unfold signature_context_or_alloc. rewrite Hctx. cbn [bind].
    rewrite final_signature_finalize. f_equal.
    apply absorbed_Final. now apply absorbed_Update.
  - inversion Hms as [|? ? Hm Hms']; subst.
    rewrite (file_signature_sha256_through context m SNORT_FILE_MIDDLE total)
      by trivial.
    unfold signature_context_or_alloc. rewrite Hctx. cbn [bind].
    rewrite (IH _ (SHA256_Update c m (Z.of_nat (length m))) h0 (m0 ++ m));
      trivial.
    + now rewrite <- !app_assoc.
    + now apply absorbed_Update.
Qed.

Lemma length_concat_bound (ms : list (list byte)) :
  Forall (fun m => length m <= length (concat ms)) ms.
Proof.
  induction ms as [|m ms IH]; constructor; simpl; rewrite length_app.
  - lia.
  - eapply Forall_impl; [|exact IH]. simpl. intros. lia.
Qed.

(** C6.  With no depth limit in effect, the signature that one whole
    chunk leaves is the signature that the same bytes leave when they
    come as a start chunk, any number of middle chunks and an end chunk:
    in both cases the SHA-256 of all the bytes. *)
Theorem file_signature_sha256_whole_or_chunks context s ms e :
  no_limit_in_effect context
    (Z.of_nat (length (s ++ concat ms ++ e))) ->
  final_signature
    (feed file_signature_sha256 (Some context)
       (chunk_of s SNORT_FILE_START
          :: map (fun m => chunk_of m SNORT_FILE_MIDDLE) ms
          ++ [chunk_of e SNORT_FILE_END]))
  = final_signature
      (file_signature_sha256 (Some context) (s ++ concat ms ++ e)
         (Z.of_nat (length (s ++ concat ms ++ e))) SNORT_FILE_FULL)
  /\
  final_signature
    (file_signature_sha256 (Some context) (s ++ concat ms ++ e)
       (Z.of_nat (length (s ++ concat ms ++ e))) SNORT_FILE_FULL)
  = Some (SHA256 (s ++ concat ms ++ e)).
Proof.
  intros Hno.
  set (total := Z.of_nat (length (s ++ concat ms ++ e))) in *.
  assert (Hlen : length (s ++ concat ms ++ e)
                 = length s + (length (concat ms) + length e))
    by now rewrite !length_app.
  assert (Hfull :
    final_signature
      (file_signature_sha256 (Some context) (s ++ concat ms ++ e) total
         SNORT_FILE_FULL) = Some (SHA256 (s ++ concat ms ++ e))).
  { unfold total.
    rewrite (file_signature_sha256_through context _ SNORT_FILE_FULL total)
      by (trivial; unfold total; lia).
    rewrite final_signature_finalize. f_equal.
    apply absorbed_Final.
    apply (absorbed_Update _ _ [] (s ++ concat ms ++ e)), absorbed_Init. }
  split; trivial. rewrite Hfull.
  cbn [feed chunk_of chunk_data chunk_size chunk_position].
  rewrite (file_signature_sha256_through context s SNORT_FILE_START total)
    by (trivial; unfold total; lia).
  cbn [bind].
  rewrite (feed_middles_and_end total e ms _
             (SHA256_Update (SHA256_Init zero_filled) s
                (Z.of_nat (length s)))
             sha256_initial_hash_value s).
  - reflexivity.
  - reflexivity.
  - apply (absorbed_Update _ _ [] s), absorbed_Init.
  - now apply (no_limit_in_effect_frame context).
  - eapply Forall_impl; [|apply length_concat_bound].
    simpl. intros m Hm. unfold total. lia.
  - unfold total. lia.
Qed.

Lemma file_signature_sha256_whole_or_chunks_witness :
  no_limit_in_effect (new_context None) 7 /\
  final_signature
    (feed file_signature_sha256 (Some (new_context None))
       [chunk_of bytes_ab SNORT_FILE_START;
        chunk_of bytes_cd SNORT_FILE_MIDDLE;
        chunk_of bytes_ef SNORT_FILE_MIDDLE;
        chunk_of bytes_g SNORT_FILE_END])
  = Some (SHA256 (list_byte_of_string "abcdefg")).
Proof.
  assert (H : no_limit_in_effect (new_context None) 7)
    by (intros n _; reflexivity).
  split; [exact H|].
  destruct (file_signature_sha256_whole_or_chunks (new_context None)
              bytes_ab [bytes_cd; bytes_ef] bytes_g H) as (E1 & E2).
  exact (eq_trans E1 E2).
Defined.

(** C7 as the specification words it fails on a second terminal chunk:
    after the whole chunk ["a"] the signature is the SHA-256 of ["a"];
    a further whole chunk ["b"] replaces it by the SHA-256 of ["b"],
    which is another value. *)

Lemma final_signature_is_replaced :
  final_signature
    (feed file_signature_sha256 (Some (new_context None))
       [chunk_of bytes_a SNORT_FILE_FULL]) = Some (SHA256 bytes_a) /\
  final_signature
    (feed file_signature_sha256 (Some (new_context None))
       [chunk_of bytes_a SNORT_FILE_FULL; chunk_of bytes_b SNORT_FILE_FULL])
  = Some (SHA256 bytes_b) /\
  SHA256 bytes_a <> SHA256 bytes_b.
Proof.
  split; [vm_compute; reflexivity|].
  split; [vm_compute; reflexivity|].
  vm_compute. discriminate.
Qed.

(** C7 (as amended).  The final signature is written when an end chunk
    or a whole chunk is processed, each time one is, and at no other
    time: a start chunk, a middle chunk, and any chunk on which the depth
    limiter signals stop leave the stored signature as it was. *)
Theorem final_signature_written_by_last_chunks context file_data data_size
    position :
  let limited :=
    get_data_size_from_depth_limit context SNORT_FILE_SHA256 data_size in
  exists context',
    file_signature_sha256 (Some context) file_data data_size position =
    Done (Some context') /\
    FileContext.sha256 context' =
    if (limited <? 0)%Z then FileContext.sha256 context
    else match position with
         | SNORT_FILE_END =>
             Some (fst (SHA256_Final
                          (SHA256_Update (signature_context_or_alloc context)
                             file_data limited)))
         | SNORT_FILE_FULL =>
             Some (fst (SHA256_Final
                          (SHA256_Update (SHA256_Init zero_filled)
                             file_data limited)))
         | _ => FileContext.sha256 context
         end.
Proof.
  intros limited. unfold file_signature_sha256. fold limited.
  destruct (limited <? 0)%Z; [eauto|].
  destruct position; eauto.
Qed.

Lemma file_signature_sha256_stop_is_noop_witness :
  file_signature_sha256 (Some past_depth_context) bytes_cd 2
    SNORT_FILE_END = Done (Some past_depth_context) /\
  @file_type_id four_byte_identifier (Some past_depth_context) bytes_cd 2
    SNORT_FILE_END
  = Done (Some (FileContext.set_file_type_id past_depth_context 1403)).
Proof.
  destruct (file_signature_sha256_stop_is_noop past_depth_context bytes_cd 2
              SNORT_FILE_END eq_refl) as (H1 & H2).
  split; [exact H1|].
  exact (H2 four_byte_identifier eq_refl eq_refl).
Defined.

Lemma file_type_id_concludes_witness :
  stored_type
    (@file_type_id four_byte_identifier (Some past_depth_context) bytes_cd 2
       SNORT_FILE_MIDDLE) = Some 1403%Z /\
  stored_type
    (@file_type_id four_byte_identifier (Some (new_context (Some depth_5)))
       bytes_ab 2 SNORT_FILE_END) = Some 1403%Z.
Proof.
  split.
  - destruct (proj1 (@file_type_id_concludes four_byte_identifier
                       past_depth_context bytes_cd 2 SNORT_FILE_MIDDLE
                       eq_refl))
      as (c' & E & T & _).
    + reflexivity.
    + rewrite E. exact (f_equal Some T).
  - destruct (proj1 (proj2 (@file_type_id_concludes four_byte_identifier
                       (new_context (Some depth_5)) bytes_ab 2
                       SNORT_FILE_END eq_refl)
                     ltac:(vm_compute; discriminate) depth_5 eq_refl)
                eq_refl)
      as (c' & E & T & _).
    rewrite E. exact (f_equal Some (T eq_refl)).
Defined.

Lemma file_type_id_resolved_is_final_witness :
  feed (@file_type_id four_byte_identifier) (Some identified_context)
    [chunk_of bytes_ab SNORT_FILE_START; chunk_of bytes_cd SNORT_FILE_END]
  = Done (Some identified_context).
Proof.
  apply (@file_type_id_resolved_is_final four_byte_identifier
           identified_context).
  vm_compute. discriminate.
Defined.

(* ====================================================================== *)
(** * Part III.  More of the code                                          *)
(* ====================================================================== *)

(** ** The tokenizer *)

(** X1.  [CvsGetCommand] on a line of the payload: the command starts at
    the line and holds no separator; without a separator in the line the
    command is the whole line and the argument is null; with one, the
    argument starts right after the first separator and ends where the
    line ends, and command, separator and argument make up the line. *)
Theorem CvsGetCommand_tokenises buf line e :
  line <= e -> e <= length buf ->
  let c := CvsGetCommand buf (Some line) e in
  let name := range buf line (line + cmd_str_len c) in
  cmd_str c = Some line /\
  ~ In CVS_COMMAND_SEPARATOR name /\
  match cmd_arg c with
  | None =>
      cmd_arg_len c = 0 /\ name = range buf line e
  | Some a =>
      a = line + cmd_str_len c + 1 /\
      a + cmd_arg_len c = e /\
      deref buf (line + cmd_str_len c) = CVS_COMMAND_SEPARATOR /\
      range buf line e = name ++ CVS_COMMAND_SEPARATOR :: range buf a e
  end.
Proof.
  intros H1 H2. unfold CvsGetCommand.
  destruct (memchr buf line CVS_COMMAND_SEPARATOR (e - line)) as [p|] eqn:E;
    cbn [cmd_str cmd_str_len cmd_arg cmd_arg_len].
  - destruct (memchr_found buf _ line e p H2 H1 E) as (Hp & Hc & Hn).
    pose proof (memchr_range buf CVS_COMMAND_SEPARATOR (e - line) line) as M.
    rewrite E in M. destruct M as (_ & M & _); [lia|].
    replace (line + (p - line)) with p by lia.
    replace (p + 1) with (S p) by lia.
    repeat split; trivial; lia.
  - replace (line + (e - line)) with e by lia.
    repeat split; trivial. now apply memchr_not_found.
Qed.

Lemma CvsGetCommand_tokenises_witness :
  cmd_arg (CvsGetCommand unchanged_payload (Some 0) 19) = Some 6 /\
  range unchanged_payload 0 19 =
    range unchanged_payload 0 5
      ++ CVS_COMMAND_SEPARATOR :: range unchanged_payload 6 19.
Proof.
  pose proof (CvsGetCommand_tokenises unchanged_payload 0 19
                ltac:(lia) ltac:(vm_compute; lia)) as H.
  split; [reflexivity|]. exact (proj2 (proj2 (proj2 (proj2 (proj2 H))))).
Defined.

(** X2.  [CvsGetEOL] on what is left of the payload: the line up to the
    marker [eolm] holds no delimiter; either there is no delimiter left
    and both results are the end of the buffer, or the marker is on the
    first delimiter and [eol] is the byte after it. *)
Theorem CvsGetEOL_splits buf line end_ :
  line <= end_ -> end_ <= length buf ->
  let eol := fst (CvsGetEOL buf line end_) in
  let eolm := snd (CvsGetEOL buf line end_) in
  line <= eolm <= end_ /\
  ~ In CVS_COMMAND_DELIMITER (range buf line eolm) /\
  ((eolm = end_ /\ eol = end_) \/
   (eolm < end_ /\ deref buf eolm = CVS_COMMAND_DELIMITER /\
    eol = eolm + 1)).
Proof.
  intros H1 H2. unfold CvsGetEOL.
  destruct (memchr buf line CVS_COMMAND_DELIMITER (end_ - line)) as [p|] eqn:E;
    cbn [fst snd].
  - pose proof (memchr_range buf CVS_COMMAND_DELIMITER (end_ - line) line) as M.
    rewrite E in M. destruct M as (Hp & Hc & Hn); [lia|].
    split; [lia|]. split; trivial. right. repeat split; trivial. lia.
  - split; [lia|]. split; [now apply memchr_not_found | now left].
Qed.

Lemma CvsGetEOL_splits_witness :
  CvsGetEOL unchanged_payload 0 30 = (20, 19) /\
  deref unchanged_payload 19 = CVS_COMMAND_DELIMITER.
Proof.
  pose proof (CvsGetEOL_splits unchanged_payload 0 30
                ltac:(lia) ltac:(vm_compute; lia)) as (_ & _ & H).
  split; [reflexivity|].
  destruct H as [(H & _)|(_ & H & _)]; [discriminate H | exact H].
Defined.

(** X3.  [CvsCmdCompare] answers [0] exactly when the command in the
    payload has the length of the string and the same bytes, and [1] in
    every other case. *)
Theorem CvsCmdCompare_zero_iff cmd buf p len :
  p + len <= length buf ->
  (CvsCmdCompare cmd buf p len = 0%Z <-> range buf p (p + len) = cmd) /\
  (CvsCmdCompare cmd buf p len = 1%Z <-> range buf p (p + len) <> cmd).
Proof.
  intros Hle. pose proof (CvsCmdCompare_range cmd buf p len Hle) as H.
  split; trivial. rewrite <- H. unfold CvsCmdCompare.
  destruct (_ && _); split; intros; try discriminate; congruence.
Qed.

Lemma CvsCmdCompare_zero_iff_witness :
  CvsCmdCompare CVS_ENTRY_STR unchanged_payload 0 5 = 0%Z.
Proof.
  apply (proj1 (CvsCmdCompare_zero_iff CVS_ENTRY_STR unchanged_payload 0 5
                  ltac:(vm_compute; lia))).
  reflexivity.
Defined.

(** ** The validator and the decoder on what they are given *)

(** X4.  The answer of [CvsValidateEntry] depends on the bytes of the
    argument only: not on where the argument lies in the payload, nor on
    the bytes around it. *)
Theorem CvsValidateEntry_reads_its_range buf a e buf' a' e' :
  e <= length buf -> e' <= length buf' ->
  range buf a e = range buf' a' e' ->
  CvsValidateEntry buf (Some a) (Some e) =
  CvsValidateEntry buf' (Some a') (Some e').
Proof.
  intros H H' Heq.
  now rewrite (CvsValidateEntry_range buf a e H),
              (CvsValidateEntry_range buf' a' e' H'), Heq.
Qed.

Lemma CvsValidateEntry_reads_its_range_witness :
  CvsValidateEntry entry_arg_sample (Some 0) (Some 13) =
  CvsValidateEntry unchanged_payload (Some 6) (Some 19).
Proof.
  apply (CvsValidateEntry_reads_its_range entry_arg_sample 0 13
           unchanged_payload 6 19).
  - vm_compute. lia.
  - vm_compute. lia.
  - reflexivity.
Defined.

Lemma byte_after_sep_prefix k pre l :
  ~ In "/"%byte pre ->
  byte_after_sep (S k) (pre ++ l) = byte_after_sep (S k) l.
Proof.
  induction pre as [|b pre IH]; intros H; trivial.
  cbn [app byte_after_sep].
  destruct (Byte.eqb b "/") eqn:E.
  - apply byte_eqb_true in E. subst b. exfalso. apply H. now left.
  - apply IH. intros Hin. apply H. now right.
Qed.

(** The byte after the [k]-th separator is not changed by what comes
    after a later separator. *)
Lemma byte_after_sep_suffix suf : forall l k,
  k < count_sep l ->
  byte_after_sep k (l ++ suf) = byte_after_sep k l.
Proof.
  unfold count_sep.
  induction l as [|b l IH]; intros k Hk; [simpl in Hk; lia|].
  cbn [app byte_after_sep]. destruct k as [|k]; trivial.
  destruct (Byte.eqb b "/") eqn:E.
  - apply byte_eqb_true in E. subst b.
    rewrite count_occ_cons_eq in Hk by trivial. apply IH. lia.
  - apply byte_eqb_false in E.
    rewrite count_occ_cons_neq in Hk by trivial. now apply IH.
Qed.

Lemma well_formed_entry_padded pre arg suf :
  ~ In "/"%byte pre -> ~ In "/"%byte suf ->
  (well_formed_entry (pre ++ arg ++ suf) <-> well_formed_entry arg).
Proof.
  intros Hpre Hsuf. unfold well_formed_entry.
  rewrite !count_sep_app, (count_sep_none pre Hpre),
    (count_sep_none suf Hsuf), Nat.add_0_r. simpl.
  rewrite byte_after_sep_prefix by trivial.
  split; intros (Hc & H); split; trivial.
  - now rewrite byte_after_sep_suffix in H by lia.
  - now rewrite byte_after_sep_suffix by lia.
Qed.

(** X5.  [CvsValidateEntry] counts separators and looks at one byte: an
    argument with bytes other than ['/'] put before it and after it is
    valid exactly when the argument is.  So what comes before the first
    separator and after the fifth is never looked at. *)
Theorem CvsValidateEntry_ignores_padding pre arg suf :
  ~ In "/"%byte pre -> ~ In "/"%byte suf ->
  CvsValidateEntry (pre ++ arg ++ suf) (Some 0)
    (Some (length (pre ++ arg ++ suf)))
  = CvsValidateEntry arg (Some 0) (Some (length arg)).
Proof.
  intros Hpre Hsuf.
  rewrite !CvsValidateEntry_range by lia.
  unfold range. cbn [skipn]. rewrite !Nat.sub_0_r, !firstn_all.
  pose proof (well_formed_entry_padded pre arg suf Hpre Hsuf) as H.
  rewrite <- !entry_ok_from_start in H.
  destruct (entry_ok_from 0 (pre ++ arg ++ suf)),
           (entry_ok_from 0 arg); trivial.
  - discriminate (proj1 H eq_refl).
  - discriminate (proj2 H eq_refl).
Qed.

Lemma CvsValidateEntry_ignores_padding_witness :
  CvsValidateEntry
    (list_byte_of_string "ab" ++ entry_arg_sample ++ list_byte_of_string "xyz")
    (Some 0) (Some 18)
  = CvsValidateEntry entry_arg_sample (Some 0) (Some 13).
Proof.
  apply (CvsValidateEntry_ignores_padding (list_byte_of_string "ab")
           entry_arg_sample (list_byte_of_string "xyz")).
  - simpl. intuition discriminate.
  - simpl. intuition discriminate.
Defined.

(** With any other type than invalid-entry the loop goes through the
    lines and returns no alert. *)
Lemma CvsDecode_loop_other_type buf end_ opt :
  type opt <> CVS_INVALID_ENTRY ->
  forall fuel line, end_ - line <= fuel ->
  CvsDecode_loop fuel buf line end_ opt = Some CVS_NO_ALERT.
Proof.
  intros Htype. apply Z.eqb_neq in Htype.
  induction fuel as [|fuel IH]; intros line Hfuel; cbn [CvsDecode_loop].
  - now loop_test_false.
  - destruct (Nat.ltb_spec line end_) as [Hlt|Hge]; trivial.
    pose proof (CvsGetEOL_advances buf line end_ Hlt) as (G & _).
    unfold CvsDecode_body.
    destruct (CvsGetEOL buf line end_) as [eol eolm]. cbn [fst] in G.
    unfold CvsGetCommand.
    destruct (memchr buf line CVS_COMMAND_SEPARATOR (eolm - line));
      cbn [cmd_str]; rewrite Htype; apply IH; lia.
Qed.

Lemma CvsDecode_loop_other_type_total data data_len opt :
  type opt <> CVS_INVALID_ENTRY ->
  CvsDecode data data_len opt = Some CVS_NO_ALERT.
Proof.
  intros Htype. apply CvsDecode_loop_other_type; trivial. lia.
Qed.

(** X6.  An option of any other type than invalid-entry never alerts,
    whatever the payload. *)
Theorem CvsDecode_other_type_never_alerts data data_len opt :
  type opt <> CVS_INVALID_ENTRY ->
  CvsDecode data data_len opt = Some CVS_NO_ALERT.
Proof.
  intros Htype. apply CvsDecode_loop_other_type; trivial. lia.
Qed.

Lemma CvsDecode_other_type_never_alerts_witness :
  CvsDecode modified_payload 30 {| type := CVS_END_OF_ENUM |}
  = Some CVS_NO_ALERT.
Proof.
  apply (CvsDecode_other_type_never_alerts modified_payload 30
           {| type := CVS_END_OF_ENUM |}).
  discriminate.
Defined.

(** The answer of [CvsDecode], for any option, read on the payload. *)
Lemma CvsDecode_cases data data_len opt :
  data_len <= length data ->
  (CvsDecode data data_len opt = Some CVS_ALERT /\
   type opt = CVS_INVALID_ENTRY /\
   malformed_entry_followed is_Entry (firstn data_len data))
  \/
  (CvsDecode data data_len opt = Some CVS_NO_ALERT /\
   ~ (type opt = CVS_INVALID_ENTRY /\
      malformed_entry_followed is_Entry (firstn data_len data))).
Proof.
  intros Hle. destruct (Z.eq_dec (type opt) CVS_INVALID_ENTRY) as [Ht|Ht].
  - unfold CvsDecode. rewrite <- range_firstn.
    destruct (CvsDecode_loop_spec data data_len opt Hle Ht data_len 0)
      as [(-> & HM)|(-> & HM)]; try lia; [left|right]; tauto.
  - right. split; [now apply CvsDecode_loop_other_type_total | tauto].
Qed.

(** X7.  [CvsDecode] reads the first [data_len] bytes only: two buffers
    that agree on them get the same answer. *)
Theorem CvsDecode_reads_only_the_payload data data' data_len opt :
  data_len <= length data -> data_len <= length data' ->
  firstn data_len data = firstn data_len data' ->
  CvsDecode data data_len opt = CvsDecode data' data_len opt.
Proof.
  intros H H' Heq.
  destruct (CvsDecode_cases data data_len opt H) as [(-> & A)|(-> & A)],
           (CvsDecode_cases data' data_len opt H') as [(-> & B)|(-> & B)];
    trivial; rewrite Heq in A; tauto.
Qed.

Lemma CvsDecode_reads_only_the_payload_witness :
  CvsDecode (modified_payload ++ list_byte_of_string "Entry x") 28
    invalid_entry_option
  = CvsDecode modified_payload 28 invalid_entry_option.
Proof.
  apply (CvsDecode_reads_only_the_payload
           (modified_payload ++ list_byte_of_string "Entry x")
           modified_payload 28 invalid_entry_option).
  - vm_compute. lia.
  - vm_compute. lia.
  - reflexivity.
Defined.

Lemma followed_delimiter_inside P payload :
  malformed_entry_followed P payload ->
  In CVS_COMMAND_DELIMITER (removelast payload).
Proof.
  intros (pre & ln & post & -> & _ & _ & _ & Hpost).
  rewrite !removelast_app by (try discriminate; now destruct ln).
  cbn [removelast]. destruct post as [|x post]; [contradiction|].
  apply in_or_app. right. apply in_or_app. right. now left.
Qed.

Lemma followed_length payload :
  malformed_entry_followed is_Entry payload -> 8 <= length payload.
Proof.
  intros (pre & ln & post & -> & _ & _ & (name & arg & -> & _ & -> & _) & Hpost).
  destruct post; [contradiction|].
  repeat rewrite length_app. simpl. lia.
Qed.

(** X8.  [CvsDecode] does not alert on a payload of fewer than eight
    bytes, nor on a payload that has no delimiter before its last byte:
    the shortest payload that alerts is ["Entry "], a delimiter and one
    more byte. *)
Theorem CvsDecode_needs_a_following_line data data_len opt :
  data_len <= length data ->
  data_len < 8 \/
  ~ In CVS_COMMAND_DELIMITER (removelast (firstn data_len data)) ->
  CvsDecode data data_len opt = Some CVS_NO_ALERT.
Proof.
  intros Hle H.
  destruct (CvsDecode_cases data data_len opt Hle)
    as [(_ & _ & HM)|(-> & _)]; trivial.
  exfalso. destruct H as [H|H].
  - apply followed_length in HM. rewrite length_firstn in HM. lia.
  - apply H. now apply (followed_delimiter_inside is_Entry).
Qed.

Lemma CvsDecode_needs_a_following_line_witness :
  CvsDecode modified_payload 21 invalid_entry_option = Some CVS_NO_ALERT.
Proof.
  apply (CvsDecode_needs_a_following_line modified_payload 21
           invalid_entry_option).
  - vm_compute. lia.
  - right. vm_compute. intuition discriminate.
Defined.

Lemma followed_app P payload more :
  malformed_entry_followed P payload ->
  malformed_entry_followed P (payload ++ more).
Proof.
  intros (pre & ln & post & -> & Hpre & Hln & Hline & Hpost).
  exists pre, ln, (post ++ more). repeat split; trivial.
  - now rewrite <- !app_assoc.
  - destruct post; [contradiction | discriminate].
Qed.

(** X9.  More data never hides an alert: when [CvsDecode] alerts on the
    first [data_len] bytes of a buffer, it alerts on every longer part of
    the buffer too. *)
Theorem CvsDecode_alert_is_kept data data_len data_len' opt :
  data_len <= data_len' -> data_len' <= length data ->
  CvsDecode data data_len opt = Some CVS_ALERT ->
  CvsDecode data data_len' opt = Some CVS_ALERT.
Proof.
  intros H1 H2 Halert.
  destruct (CvsDecode_cases data data_len opt ltac:(lia))
    as [(_ & Ht & HM)|(E & _)]; [|rewrite E in Halert; discriminate].
  destruct (CvsDecode_cases data data_len' opt H2)
    as [(-> & _)|(_ & HN)]; trivial.
  exfalso. apply HN. split; trivial.
  rewrite <- range_firstn, (range_split data 0 data_len data_len') by lia.
  rewrite range_firstn. now apply followed_app.
Qed.

Lemma CvsDecode_alert_is_kept_witness :
  CvsDecode modified_payload 30 invalid_entry_option = Some CVS_ALERT.
Proof.
  apply (CvsDecode_alert_is_kept modified_payload 22 30 invalid_entry_option).
  - lia.
  - vm_compute. lia.
  - reflexivity.
Defined.

(** ** The option: evaluation, equality, construction *)

(** X10.  [eval] on a packet whose payload, when it has one, is at least
    [dsize] bytes long: it matches exactly when the option is of type
    invalid-entry, the packet has a TCP header and a payload, and in the
    first [dsize] bytes of the payload a malformed Entry line is followed
    by more data; in every other case it answers no match. *)
Theorem eval_match_iff config pkt :
  (forall payload, data pkt = Some payload -> dsize pkt <= length payload) ->
  (eval config (Some pkt) = Some DETECTION_OPTION_MATCH <->
   type config = CVS_INVALID_ENTRY /\ tcph pkt <> None /\
   exists payload,
     data pkt = Some payload /\
     malformed_entry_followed is_Entry (firstn (dsize pkt) payload)) /\
  (eval config (Some pkt) = Some DETECTION_OPTION_MATCH \/
   eval config (Some pkt) = Some DETECTION_OPTION_NO_MATCH).
Proof.
  intros Hlen. unfold eval.
  destruct (tcph pkt) as [hdr|], (data pkt) as [payload|];
    try (split; [split; [discriminate|] | now right];
         intros (_ & H1 & (x & H2 & _)); congruence).
  specialize (Hlen payload eq_refl).
  destruct (Nat.eqb_spec (dsize pkt) 0) as [E|E].
  - split; [split; [discriminate|] | now right].
    intros (_ & _ & (x & Hx & HM)). injection Hx as <-.
    apply followed_length in HM. rewrite E in HM. simpl in HM. lia.
  - destruct (CvsDecode_cases payload (dsize pkt) config Hlen)
      as [(-> & Ht & HM)|(-> & HN)]; simpl.
    + split; [|now left]. split; trivial. intros _.
      repeat split; trivial; [discriminate | eauto].
    + split; [split; [discriminate|] | now right].
      intros (Ht & _ & (x & Hx & HM)). injection Hx as <-. tauto.
Qed.

Lemma eval_match_iff_witness :
  eval invalid_entry_option
    (Some {| tcph := Some tt; data := Some modified_payload; dsize := 30 |})
  = Some DETECTION_OPTION_MATCH /\
  malformed_entry_followed is_Entry (firstn 30 modified_payload).
Proof.
  split; [reflexivity|].
  destruct (eval_match_iff invalid_entry_option
              {| tcph := Some tt; data := Some modified_payload;
                 dsize := 30 |}) as ((H & _) & _).
  - intros payload E. injection E as <-. vm_compute. lia.
  - destruct (H eq_refl) as (_ & _ & (payload & E & HM)).
    injection E as <-. exact HM.
Defined.

Lemma to_nat_zero (x : byte) : Byte.to_nat x = 0 -> x = x00.
Proof. intros H. now apply to_nat_inj. Qed.

Lemma tolower_zero (x : byte) : tolower x = x00 -> x = x00.
Proof. destruct x; intros H; trivial; discriminate H. Qed.

Lemma strcmp_zero_iff : forall a b,
  ~ In x00 a -> ~ In x00 b -> (strcmp a b = 0%Z <-> a = b).
Proof.
  induction a as [|x a IH]; intros [|y b] Ha Hb; cbn [strcmp].
  - tauto.
  - split; [|discriminate]. intros H. exfalso. apply Hb. left.
    apply to_nat_zero. lia.
  - split; [|discriminate]. intros H. exfalso. apply Ha. left.
    apply to_nat_zero. lia.
  - destruct (Byte.eqb x y) eqn:E.
    + apply byte_eqb_true in E. subst y.
      rewrite IH by (intros H; (apply Ha + apply Hb); now right).
      split; [intros ->; trivial | intros H; now injection H].
    + apply byte_eqb_false in E. split.
      * intros H. exfalso. apply E. apply to_nat_inj. lia.
      * intros H. injection H as H _. contradiction.
Qed.

Lemma strcasecmp_zero_iff : forall a b,
  ~ In x00 a -> ~ In x00 b ->
  (strcasecmp a b = 0%Z <-> map tolower a = map tolower b).
Proof.
  induction a as [|x a IH]; intros [|y b] Ha Hb; cbn [strcasecmp map].
  - tauto.
  - split; [|discriminate]. intros H. exfalso. apply Hb. left.
    apply tolower_zero, to_nat_zero. lia.
  - split; [|discriminate]. intros H. exfalso. apply Ha. left.
    apply tolower_zero, to_nat_zero. lia.
  - destruct (Byte.eqb (tolower x) (tolower y)) eqn:E.
    + apply byte_eqb_true in E. rewrite E.
      rewrite IH by (intros H; (apply Ha + apply Hb); now right).
      split; [intros ->; trivial | intros H; now injection H].
    + apply byte_eqb_false in E. split.
      * intros H. exfalso. apply E. apply to_nat_inj. lia.
      * intros H. injection H as H _. contradiction.
Qed.

(** X11.  [operator==] of a CVS option holds for the options of the same
    name and the same type, and for no other: an option that compares
    equal is the same option, so the engine may evaluate one in place of
    the other. *)
Theorem operator_eq_iff c ips :
  ~ In x00 (get_name ips) ->
  (operator_eq (CvsOption c) ips = true <-> ips = CvsOption c) /\
  (operator_eq (CvsOption c) ips = true ->
   forall p, eval (config ips) p = eval c p).
Proof.
  intros Hname.
  assert (H : operator_eq (CvsOption c) ips = true <-> ips = CvsOption c).
  { unfold operator_eq. cbn [get_name config CvsOption].
    destruct ips as [name [t]], c as [t0]. cbn [get_name config type] in *.
    destruct (strcmp s_name name =? 0)%Z eqn:E; cbn [negb].
    - apply Z.eqb_eq in E.
      apply strcmp_zero_iff in E; trivial;
        [|simpl; intuition discriminate]. subst name.
      destruct (Z.eqb_spec t0 t) as [->|Hne].
      + tauto.
      + split; [discriminate|]. intros H. injection H as H. congruence.
    - apply Z.eqb_neq in E. split; [discriminate|].
      intros H. injection H as H1 H2. subst name. exfalso. apply E.
      apply strcmp_zero_iff; trivial; simpl; intuition discriminate. }
  split; trivial. intros Heq p. apply H in Heq. now subst ips.
Qed.

Lemma operator_eq_iff_witness :
  operator_eq (CvsOption invalid_entry_option)
    (CvsOption invalid_entry_option) = true.
Proof.
  apply (proj1 (operator_eq_iff invalid_entry_option
                  (CvsOption invalid_entry_option)
                  ltac:(simpl; intuition discriminate))).
  reflexivity.
Defined.

(** X12.  [cvs_parse] accepts the rule arguments exactly when they are a
    single token that is "invalid-entry" in any case of letters, and then
    sets the type to invalid-entry; in every other case it reports an
    error and leaves the option as it was. *)
Theorem cvs_parse_accepts_iff toks cvs_rule_option :
  Forall (fun t => ~ In x00 t) toks ->
  (snd (cvs_parse toks cvs_rule_option) = false <->
   exists t, toks = [t] /\
             map tolower t = map tolower CVS_CONF_INVALID_ENTRY_STR) /\
  (snd (cvs_parse toks cvs_rule_option) = false ->
   type (fst (cvs_parse toks cvs_rule_option)) = CVS_INVALID_ENTRY) /\
  (snd (cvs_parse toks cvs_rule_option) = true ->
   fst (cvs_parse toks cvs_rule_option) = cvs_rule_option).
Proof.
  intros Hnul. unfold cvs_parse.
  destruct toks as [|t [|t' toks]]; cbn [length nth fst snd].
  - repeat split; trivial; try discriminate. intros (t & H & _). discriminate.
  - inversion Hnul as [|? ? Ht _]; subst.
    pose proof (strcasecmp_zero_iff t CVS_CONF_INVALID_ENTRY_STR Ht
                  ltac:(simpl; intuition discriminate)) as H.
    destruct (strcasecmp t CVS_CONF_INVALID_ENTRY_STR =? 0)%Z eqn:E;
      cbn [fst snd].
    + apply Z.eqb_eq in E. repeat split; trivial; try discriminate.
      intros _. exists t. split; trivial. now apply H.
    + apply Z.eqb_neq in E. repeat split; trivial; try discriminate.
      intros (t0 & Ht0 & Hl). injection Ht0 as <-. exfalso. apply E.
      now apply H.
  - repeat split; trivial; try discriminate. intros (t0 & H & _). discriminate.
Qed.

Lemma cvs_parse_accepts_iff_witness :
  cvs_parse [list_byte_of_string "Invalid-Entry"] {| type := 0%Z |}
  = (invalid_entry_option, false).
Proof.
  destruct (cvs_parse_accepts_iff [list_byte_of_string "Invalid-Entry"]
              {| type := 0%Z |}) as (_ & H & _).
  - constructor; [simpl; intuition discriminate | constructor].
  - specialize (H eq_refl).
    destruct (cvs_parse [list_byte_of_string "Invalid-Entry"]
                {| type := 0%Z |}) as [[t] err] eqn:E.
    cbn [fst type] in H. subst t. rewrite <- E. reflexivity.
Defined.

(** X13.  An option built from rule arguments that [cvs_parse] rejected
    keeps the zero type it was created with, and never matches a
    packet. *)
Theorem cvs_ctor_rejected_never_matches toks p :
  snd (cvs_parse toks {| type := 0%Z |}) = true ->
  type (config (cvs_ctor toks)) = 0%Z /\
  eval (config (cvs_ctor toks)) p = Some DETECTION_OPTION_NO_MATCH.
Proof.
  intros Herr.
  assert (Ht : type (config (cvs_ctor toks)) = 0%Z).
  { unfold cvs_ctor, cvs_parse in *. cbn [config CvsOption].
    destruct (length toks) as [|[|n]]; trivial.
    destruct (_ =? _)%Z; [discriminate | trivial]. }
  split; trivial. unfold eval.
  destruct p as [pkt|]; trivial.
  destruct (tcph pkt), (data pkt) as [payload|]; trivial.
  destruct (dsize pkt =? 0); trivial.
  rewrite CvsDecode_loop_other_type_total; trivial.
  rewrite Ht. discriminate.
Qed.

Lemma cvs_ctor_rejected_never_matches_witness :
  eval (config (cvs_ctor [list_byte_of_string "invalid"; []]))
    (Some {| tcph := Some tt; data := Some modified_payload; dsize := 30 |})
  = Some DETECTION_OPTION_NO_MATCH.
Proof.
  apply (cvs_ctor_rejected_never_matches
           [list_byte_of_string "invalid"; []]
           (Some {| tcph := Some tt; data := Some modified_payload;
                    dsize := 30 |})).
  reflexivity.
Defined.

(** ** The depth limiter, further *)

(** The limiter in plain arithmetic, for numbers of the expected ranges. *)
Lemma get_data_size_from_depth_limit_plain context type data_size max_depth :
  configured_depth context type = Some max_depth ->
  (0 <= FileContext.processed_bytes context < 2 ^ 64)%Z ->
  (0 <= max_depth < 2 ^ 64)%Z ->
  (0 <= data_size < 2 ^ 31)%Z ->
  (FileContext.processed_bytes context + data_size < 2 ^ 64)%Z ->
  get_data_size_from_depth_limit context type data_size =
  if (FileContext.processed_bytes context >? max_depth)%Z then (-1)%Z
  else if (FileContext.processed_bytes context + data_size >? max_depth)%Z
  then (max_depth - FileContext.processed_bytes context)%Z
  else data_size.
Proof.
  intros Hcfg Hp Hmax Hd Hsum.
  rewrite get_data_size_from_depth_limit_unfold, Hcfg.
  destruct (Z.gtb_spec (FileContext.processed_bytes context) max_depth)
    as [Hgt|Hle]; trivial.
  unfold to_uint64, to_int.
  change 18446744073709551616%Z with (2 ^ 64)%Z.
  change 4294967296%Z with (2 ^ 32)%Z.
  change 2147483648%Z with (2 ^ 31)%Z.
  rewrite (Z.mod_small data_size) by lia.
  rewrite (Z.mod_small (_ + data_size)) by lia.
  destruct (Z.gtb_spec (FileContext.processed_bytes context + data_size)
              max_depth) as [Hgt|Hle']; trivial.
  rewrite (Z.mod_small (max_depth - _)) by lia.
  rewrite Z.mod_small by lia. lia.
Qed.

(** X14.  For a kind with a configured depth and numbers of the expected
    ranges, the limiter never returns more than it was asked for and
    never lets the count of processed bytes pass the depth: it returns
    [-1] exactly when the count is already above the depth, and otherwise
    a length between zero and the requested one that, added to the count,
    stays within the depth. *)
Theorem get_data_size_from_depth_limit_bounds context type data_size
    max_depth :
  configured_depth context type = Some max_depth ->
  (0 <= FileContext.processed_bytes context < 2 ^ 64)%Z ->
  (0 <= max_depth < 2 ^ 64)%Z ->
  (0 <= data_size < 2 ^ 31)%Z ->
  (FileContext.processed_bytes context + data_size < 2 ^ 64)%Z ->
  let limited := get_data_size_from_depth_limit context type data_size in
  (limited = -1 <-> FileContext.processed_bytes context > max_depth)%Z /\
  (limited <> -1 ->
   0 <= limited <= data_size /\
   FileContext.processed_bytes context + limited <= max_depth)%Z.
Proof.
  intros Hcfg Hp Hmax Hd Hsum limited. unfold limited.
  rewrite (get_data_size_from_depth_limit_plain context type data_size
             max_depth) by trivial.
  destruct (Z.gtb_spec (FileContext.processed_bytes context) max_depth);
    [lia|].
  destruct (Z.gtb_spec (FileContext.processed_bytes context + data_size)
              max_depth); lia.
Qed.

Lemma get_data_size_from_depth_limit_bounds_witness :
  (0 <= get_data_size_from_depth_limit (new_context (Some depth_5))
          SNORT_FILE_SHA256 10 <= 10)%Z.
Proof.
  destruct (get_data_size_from_depth_limit_bounds
              (new_context (Some depth_5)) SNORT_FILE_SHA256 10 5)
    as (_ & H); try reflexivity; try (simpl; lia).
  apply H. vm_compute. discriminate.
Defined.

(** X15.  Limiting twice is limiting once: under the same conditions, a
    length that the limiter returned, other than the stop value, is
    returned as it is when it is given to the limiter again. *)
Theorem get_data_size_from_depth_limit_idempotent context type data_size
    max_depth :
  configured_depth context type = Some max_depth ->
  (0 <= FileContext.processed_bytes context < 2 ^ 64)%Z ->
  (0 <= max_depth < 2 ^ 64)%Z ->
  (0 <= data_size < 2 ^ 31)%Z ->
  (FileContext.processed_bytes context + data_size < 2 ^ 64)%Z ->
  let limited := get_data_size_from_depth_limit context type data_size in
  limited <> (-1)%Z ->
  get_data_size_from_depth_limit context type limited = limited.
Proof.
  intros Hcfg Hp Hmax Hd Hsum limited. unfold limited.
  rewrite (get_data_size_from_depth_limit_plain context type data_size
             max_depth) by trivial.
  destruct (Z.gtb_spec (FileContext.processed_bytes context) max_depth)
    as [Hgt|Hle]; [congruence|]. intros _.
  destruct (Z.gtb_spec (FileContext.processed_bytes context + data_size)
              max_depth) as [Hgt|Hle'];
    rewrite (get_data_size_from_depth_limit_plain context type _ max_depth)
      by (trivial; lia);
    destruct (Z.gtb_spec (FileContext.processed_bytes context) max_depth);
    try lia;
    match goal with
    | |- context [(?a >? ?b)%Z] => destruct (Z.gtb_spec a b); lia
    end.
Qed.

Lemma get_data_size_from_depth_limit_idempotent_witness :
  get_data_size_from_depth_limit (new_context (Some depth_5))
    SNORT_FILE_TYPE_ID 5 = 5%Z.
Proof.
  apply (get_data_size_from_depth_limit_idempotent
           (new_context (Some depth_5)) SNORT_FILE_TYPE_ID 10 5);
    try reflexivity; try (simpl; lia).
  vm_compute. discriminate.
Defined.

(** X16.  A negative requested length is added as an unsigned number.
    With a count of processed bytes within the depth: if the count is at
    least the size of the negative length, the negative length comes back
    as it is (and the callers stop on it); if the count is smaller, the
    sum wraps around to the count plus the length plus [2^64], and when
    that is above the depth, as it always is for a depth below
    [2^64 - 2^31], the limiter returns the depth less the count converted
    to [int]: the depth less the count itself, a length that is not
    negative, when that is below [2^31], and that less [2^32], a negative
    length, when it is from [2^31] to below [2^32]. *)
Theorem get_data_size_from_depth_limit_negative context type data_size
    max_depth :
  configured_depth context type = Some max_depth ->
  (0 <= FileContext.processed_bytes context <= max_depth)%Z ->
  (max_depth < 2 ^ 64)%Z ->
  (- 2 ^ 31 <= data_size < 0)%Z ->
  let processed_bytes := FileContext.processed_bytes context in
  get_data_size_from_depth_limit context type data_size =
  (if ((processed_bytes + data_size <? 0)
       && (processed_bytes + data_size + 2 ^ 64 >? max_depth))%Z
   then to_int (max_depth - processed_bytes)
   else data_size) /\
  ((max_depth < 2 ^ 64 - 2 ^ 31)%Z ->
   (processed_bytes + data_size < 0)%Z ->
   ((max_depth - processed_bytes < 2 ^ 31)%Z ->
    get_data_size_from_depth_limit context type data_size
    = (max_depth - processed_bytes)%Z) /\
   ((2 ^ 31 <= max_depth - processed_bytes < 2 ^ 32)%Z ->
    get_data_size_from_depth_limit context type data_size
    = (max_depth - processed_bytes - 2 ^ 32)%Z)).
Proof.
  intros Hcfg Hp Hmax Hd processed_bytes.
  assert (E : get_data_size_from_depth_limit context type data_size =
              if ((processed_bytes + data_size <? 0)
                  && (processed_bytes + data_size + 2 ^ 64 >? max_depth))%Z
              then to_int (max_depth - processed_bytes)
              else data_size).
  { rewrite get_data_size_from_depth_limit_unfold, Hcfg.
    fold processed_bytes.
    destruct (Z.gtb_spec processed_bytes max_depth) as [Hgt|Hle]; [lia|].
    unfold to_uint64.
    change 18446744073709551616%Z with (2 ^ 64)%Z.
    replace (data_size mod 2 ^ 64)%Z with (data_size + 2 ^ 64)%Z
      by (apply (Z.mod_unique _ _ (-1)); lia).
    rewrite (Z.mod_small (max_depth - processed_bytes)) by lia.
    destruct (Z.ltb_spec (processed_bytes + data_size) 0) as [Hneg|Hpos];
      cbn [andb].
    - rewrite (Z.mod_small (_ + (data_size + 2 ^ 64))) by lia.
      now replace (processed_bytes + (data_size + 2 ^ 64))%Z
        with (processed_bytes + data_size + 2 ^ 64)%Z by lia.
    - replace ((processed_bytes + (data_size + 2 ^ 64)) mod 2 ^ 64)%Z
        with (processed_bytes + data_size)%Z
        by (apply (Z.mod_unique _ _ 1); lia).
      destruct (Z.gtb_spec (processed_bytes + data_size) max_depth);
        [lia | trivial]. }
  split; [exact E|].
  intros Hlow Hneg.
  rewrite E.
  apply Z.ltb_lt in Hneg. rewrite Hneg. cbn [andb].
  destruct (Z.gtb_spec (processed_bytes + data_size + 2 ^ 64) max_depth)
    as [_|Hle]; [|apply Z.ltb_lt in Hneg; lia].
  unfold to_int.
  change 4294967296%Z with (2 ^ 32)%Z.
  change 2147483648%Z with (2 ^ 31)%Z.
  split; intros Hroom.
  - rewrite Z.mod_small by lia. lia.
  - replace ((max_depth - processed_bytes + 2 ^ 31) mod 2 ^ 32)%Z
      with (max_depth - processed_bytes + 2 ^ 31 - 2 ^ 32)%Z
      by (apply (Z.mod_unique _ _ 1); lia).
    lia.
Qed.

Lemma get_data_size_from_depth_limit_negative_witness :
  get_data_size_from_depth_limit (new_context (Some depth_5))
    SNORT_FILE_SHA256 (-1) = 5%Z /\
  get_data_size_from_depth_limit (new_context (Some depth_2_31))
    SNORT_FILE_SHA256 (-1) = (-2147483648)%Z.
Proof.
  split.
  - apply (proj2 (get_data_size_from_depth_limit_negative
                    (new_context (Some depth_5)) SNORT_FILE_SHA256 (-1) 5
                    eq_refl ltac:(simpl; lia) ltac:(lia) ltac:(lia)));
      simpl; lia.
  - apply (proj2 (get_data_size_from_depth_limit_negative
                    (new_context (Some depth_2_31)) SNORT_FILE_SHA256 (-1)
                    2147483648 eq_refl ltac:(simpl; lia) ltac:(lia)
                    ltac:(lia)));
      simpl; lia.
Defined.

(** ** [file_type_id], further *)



(** X18.  On a context without configuration whose type is undecided,
    the limiter lets every length through, so on a negative length
    [file_type_id] runs to its end, the type of the context is then
    unknown and every other field is as it was, and on any other length,
    at any of the four positions, [file_type_id] calls the classifier
    through the null configuration; at a position that is none of the
    four it leaves the context as it was. *)
Theorem file_type_id_without_configuration {fid : file_identifier}
    context file_data data_size position :
  FileContext.file_type_id context = SNORT_FILE_TYPE_CONTINUE ->
  FileContext.file_config context = None ->
  ((data_size < 0)%Z ->
   exists context',
     file_type_id (Some context) file_data data_size position
     = Done (Some context') /\
     FileContext.file_type_id context' = SNORT_FILE_TYPE_UNKNOWN /\
     same_but_type context context') /\
  ((0 <= data_size)%Z ->
   file_type_id (Some context) file_data data_size position =
   match position with
   | SNORT_FILE_POSITION_UNKNOWN => Done (Some context)
   | _ => NullDeref
   end).
Proof.
  intros Hcont Hcfg.
  assert (E : file_type_id (Some context) file_data data_size position =
              if (data_size <? 0)%Z
              then Done (Some (FileContext.set_file_type_id context
                                 SNORT_FILE_TYPE_UNKNOWN))
              else match position with
                   | SNORT_FILE_POSITION_UNKNOWN => Done (Some context)
                   | _ => NullDeref
                   end).
  { unfold file_type_id. simpl.
    rewrite Hcont, Z.eqb_refl. simpl.
    unfold get_data_size_from_depth_limit. rewrite Hcfg.
    destruct (data_size <? 0)%Z; trivial. }
  split; intros Hsize.
  - apply Z.ltb_lt in Hsize. rewrite Hsize in E.
    eexists. split; [exact E|]. apply set_file_type_id_reads.
  - apply Z.ltb_ge in Hsize. now rewrite Hsize in E.
Qed.

Lemma file_type_id_without_configuration_witness :
  stored_type
    (@file_type_id four_byte_identifier (Some (new_context None)) bytes_ab
       (-1) SNORT_FILE_START) = Some 1403%Z /\
  @file_type_id four_byte_identifier (Some (new_context None)) bytes_ab 2
    SNORT_FILE_START = NullDeref.
Proof.
  destruct (@file_type_id_without_configuration four_byte_identifier
              (new_context None) bytes_ab (-1) SNORT_FILE_START
              eq_refl eq_refl) as (Hneg & _).
  destruct (Hneg ltac:(lia)) as (c' & E & T & _).
  split.
  - rewrite E. exact (f_equal Some T).
  - apply (proj2 (@file_type_id_without_configuration four_byte_identifier
                    (new_context None) bytes_ab 2 SNORT_FILE_START
                    eq_refl eq_refl)).
    lia.
Defined.

(** ** [file_signature_sha256], further *)

(** X19.  [file_signature_sha256] on a context always runs to its end,
    and writes the digest in progress and the signature only: the
    configuration, the count of processed bytes, the type and the
    classifier's pointer, the name, the size and the direction are as
    they were. *)
Theorem file_signature_sha256_frame context file_data data_size position :
  exists context',
    file_signature_sha256 (Some context) file_data data_size position =
    Done (Some context') /\
    FileContext.file_config context' = FileContext.file_config context /\
    FileContext.processed_bytes context'
    = FileContext.processed_bytes context /\
    FileContext.file_type_id context' = FileContext.file_type_id context /\
    FileContext.file_type_context context'
    = FileContext.file_type_context context /\
    FileContext.file_name context' = FileContext.file_name context /\
    FileContext.file_name_size context'
    = FileContext.file_name_size context /\
    FileContext.file_size context' = FileContext.file_size context /\
    FileContext.upload context' = FileContext.upload context.
Proof.
  unfold file_signature_sha256.
  destruct (_ <? 0)%Z; [eexists; repeat split|].
  destruct position; eexists; repeat split.
Qed.

Lemma SHA256_Update_firstn c d len :
  SHA256_Update c d len =
  SHA256_Update c (firstn (Z.to_nat len) d)
    (Z.of_nat (length (firstn (Z.to_nat len) d))).
Proof.
  unfold SHA256_Update. now rewrite firstn_whole.
Qed.

(** X20.  The signature of a whole chunk is the SHA-256 of the bytes that
    the limiter lets through: of the first [limited] bytes of the chunk,
    when the limiter returns [limited] and does not stop. *)
Theorem file_signature_sha256_of_limited_chunk context file_data data_size :
  let limited :=
    get_data_size_from_depth_limit context SNORT_FILE_SHA256 data_size in
  (0 <= limited)%Z ->
  final_signature
    (file_signature_sha256 (Some context) file_data data_size
       SNORT_FILE_FULL)
  = Some (SHA256 (firstn (Z.to_nat limited) file_data)).
Proof.
  intros limited Hpos. unfold file_signature_sha256. fold limited.
  apply Z.ltb_ge in Hpos. rewrite Hpos.
  rewrite final_signature_finalize. f_equal.
  rewrite SHA256_Update_firstn. apply absorbed_Final.
  apply (absorbed_Update _ _ [] (firstn (Z.to_nat limited) file_data)),
    absorbed_Init.
Qed.

Lemma file_signature_sha256_of_limited_chunk_witness :
  final_signature
    (file_signature_sha256 (Some (new_context (Some depth_5)))
       (list_byte_of_string "0123456789") 10 SNORT_FILE_FULL)
  = Some (SHA256 (list_byte_of_string "01234")).
Proof.
  apply (file_signature_sha256_of_limited_chunk
           (new_context (Some depth_5))
           (list_byte_of_string "0123456789") 10).
  vm_compute. discriminate.
Defined.

(** ** File properties *)

(** X21.  What a setter stores, its getter reads back; a setter changes
    what none of the three other getters reads, and no field of the
    context that is not a file property; through a null context the
    setters do nothing and the getters answer zero, false and null, with
    [file_name_get] leaving its two outputs as they were. *)
Theorem file_properties_round_trip context name name_size size upload
    signature old_name old_size :
  (file_name_get (file_name_set context name name_size)
     (Some old_name) (Some old_size)
   = match context with
     | Some _ => (1%Z, Some name, Some name_size)
     | None => (0%Z, Some old_name, Some old_size)
     end /\
   file_size_get (file_size_set context size)
   = match context with Some _ => size | None => 0%Z end /\
   file_direction_get (file_direction_set context upload)
   = match context with Some _ => upload | None => false end /\
   file_sig_sha256_get (file_sig_sha256_set context signature)
   = match context with Some _ => signature | None => None end) /\
  (file_size_get (file_name_set context name name_size)
   = file_size_get context /\
   file_direction_get (file_name_set context name name_size)
   = file_direction_get context /\
   file_sig_sha256_get (file_name_set context name name_size)
   = file_sig_sha256_get context) /\
  (file_name_get (file_size_set context size)
     (Some old_name) (Some old_size)
   = file_name_get context (Some old_name) (Some old_size) /\
   file_direction_get (file_size_set context size)
   = file_direction_get context /\
   file_sig_sha256_get (file_size_set context size)
   = file_sig_sha256_get context) /\
  (file_name_get (file_direction_set context upload)
     (Some old_name) (Some old_size)
   = file_name_get context (Some old_name) (Some old_size) /\
   file_size_get (file_direction_set context upload)
   = file_size_get context /\
   file_sig_sha256_get (file_direction_set context upload)
   = file_sig_sha256_get context) /\
  (file_name_get (file_sig_sha256_set context signature)
     (Some old_name) (Some old_size)
   = file_name_get context (Some old_name) (Some old_size) /\
   file_size_get (file_sig_sha256_set context signature)
   = file_size_get context /\
   file_direction_get (file_sig_sha256_set context signature)
   = file_direction_get context) /\
  (forall c, context = Some c ->
     (exists c', file_name_set context name name_size = Some c' /\
                 processing_state_kept c c') /\
     (exists c', file_size_set context size = Some c' /\
                 processing_state_kept c c') /\
     (exists c', file_direction_set context upload = Some c' /\
                 processing_state_kept c c') /\
     (exists c', file_sig_sha256_set context signature = Some c' /\
                 processing_state_kept c c')) /\
  (context = None ->
   file_name_set context name name_size = None /\
   file_size_set context size = None /\
   file_direction_set context upload = None /\
   file_sig_sha256_set context signature = None).
Proof.
  assert (Hframe : forall c : FileContext.t,
            processing_state_kept c (set_file_name c name name_size) /\
            processing_state_kept c (set_file_size c size) /\
            processing_state_kept c (set_upload c upload) /\
            processing_state_kept c (FileContext.set_sha256 c signature))
    by (intros c; repeat split).
  destruct context as [c|].
  - destruct (Hframe c) as (F1 & F2 & F3 & F4).
    split; [repeat split|]. split; [repeat split|].
    split; [repeat split|]. split; [repeat split|].
    split; [repeat split|]. split; [|discriminate].
    intros c0 H. injection H as <-.
    split; [|split; [|split]]; eexists; (split; [reflexivity|]); assumption.
  - split; [repeat split|]. split; [repeat split|].
    split; [repeat split|]. split; [repeat split|].
    split; [repeat split|]. split; [discriminate|].
    intros _. repeat split.
Qed.

(** X22.  [file_name_get] returns [1] exactly when the context and both
    output pointers are not null, and [0] otherwise; it writes the size
    only when it returns [1], but it has written the name already when
    only the pointer for the size is null. *)
Theorem file_name_get_outputs context file_name name_size :
  let '(ret, name_out, size_out) :=
    file_name_get context file_name name_size in
  (ret = 1%Z <->
   context <> None /\ file_name <> None /\ name_size <> None) /\
  (ret = 0%Z \/ ret = 1%Z) /\
  (ret = 0%Z -> size_out = name_size) /\
  (forall c, context = Some c ->
     (file_name <> None -> name_out = Some (FileContext.file_name c)) /\
     (ret = 1%Z -> size_out = Some (FileContext.file_name_size c))) /\
  (context = None \/ file_name = None -> name_out = file_name).
Proof.
  unfold file_name_get.
  destruct context as [c|], file_name as [old|], name_size as [n|];
    repeat split; auto; try discriminate; try tauto;
    try (intros (H1 & H2 & H3); congruence);
    try (intros [H|H]; discriminate);
    try congruence.
Qed.

(** ** Names of types *)

(** X23.  [file_info_from_ID] answers the two reserved identifiers with
    its two fixed strings without reading the configuration, so also
    when the configuration is null; for any other identifier it asks the
    configuration, through the pointer whatever it is, and returns the
    name of the rule's type, or null when there is no rule. *)
Theorem file_info_from_ID_cases {fid : file_identifier} {rules : file_rules}
    conf id :
  (id = SNORT_FILE_TYPE_UNKNOWN ->
   file_info_from_ID conf id = Done (Some unknown_file_type)) /\
  (id <> SNORT_FILE_TYPE_UNKNOWN -> id = SNORT_FILE_TYPE_CONTINUE ->
   file_info_from_ID conf id = Done (Some undecided_file_type)) /\
  (id <> SNORT_FILE_TYPE_UNKNOWN -> id <> SNORT_FILE_TYPE_CONTINUE ->
   file_info_from_ID conf id =
   match conf with
   | None => NullDeref
   | Some cfg => Done (option_map type_name (get_rule_from_id cfg id))
   end).
Proof.
  unfold file_info_from_ID.
  destruct (Z.eqb_spec SNORT_FILE_TYPE_UNKNOWN id) as [E1|E1],
           (Z.eqb_spec SNORT_FILE_TYPE_CONTINUE id) as [E2|E2];
    repeat split; intros; try congruence.
  destruct conf as [cfg|]; trivial. simpl.
  now destruct (get_rule_from_id cfg id).
Qed.

(** ** Printing a signature *)

Lemma hex_read_back (b : byte) :
  byte_of_hex (hex_digit (Byte.to_nat b / 16))
              (hex_digit (Byte.to_nat b mod 16)) = b.
Proof. destruct b; reflexivity. Qed.

Lemma printf_groups_length hash : forall n i,
  length (printf_groups hash i (S n)) = 5 * n + 4.
Proof.
  induction n as [|n IH]; intros i; [reflexivity|].
  change (printf_groups hash i (S (S n)))
    with (printf_02X (deref hash i) ++ printf_02X (deref hash (i + 1))
            ++ " "%byte :: printf_groups hash (i + 2) (S n)).
  rewrite !length_app. cbn [length printf_02X]. rewrite IH. lia.
Qed.

Lemma read_groups_printf hash c rest : forall n i,
  read_groups n (printf_groups hash i n ++ c :: rest)
  = map (deref hash) (seq i (2 * n)).
Proof.
  induction n as [|n IH]; intros i; [reflexivity|].
  replace (2 * S n) with (S (S (2 * n))) by lia.
  cbn [seq map]. cbn [printf_groups printf_02X app read_groups].
  rewrite !hex_read_back. replace (i + 1) with (S i) by lia.
  f_equal. f_equal. destruct n as [|n].
  - reflexivity.
  - cbn [app tl]. rewrite IH. now replace (i + 2) with (S (S i)) by lia.
Qed.

Lemma map_deref_seq l : forall n a,
  a + n <= length l -> map (deref l) (seq a n) = range l a (a + n).
Proof.
  induction n as [|n IH]; intros a H; cbn [seq map].
  - now rewrite range_nil by lia.
  - rewrite range_cons by lia. f_equal. rewrite IH by lia.
    now replace (S a + n) with (a + S n) by lia.
Qed.

Example file_sha256_print_abc :
  file_sha256_print (SHA256 (list_byte_of_string "abc")) =
  list_byte_of_string
    "SHA256: BA78 16BF 8F01 CFEA 4141 40DE 5DAE 2223 B003 61A3 9617 7A9C B410 FF61 F200 15AD"
    ++ [x0a].
Proof. vm_compute. reflexivity. Qed.

(** X24.  The line that [file_sha256_print] writes is 88 characters long
    whatever the hash, and reading its sixteen groups of four hexadecimal
    digits back gives the 32 bytes of the hash again: two different
    hashes are never printed alike. *)
Theorem file_sha256_print_reads_back hash :
  length hash = 32 ->
  length (file_sha256_print hash) = 88 /\
  read_sha256 (file_sha256_print hash) = hash /\
  forall hash', length hash' = 32 ->
    file_sha256_print hash' = file_sha256_print hash -> hash' = hash.
Proof.
  assert (Hread : forall h, length h = 32 ->
                            read_sha256 (file_sha256_print h) = h).
  { intros h Hlen. unfold read_sha256, file_sha256_print.
    change (skipn 8 (list_byte_of_string "SHA256: "
                       ++ printf_groups h 0 16 ++ [x0a]))
      with (printf_groups h 0 16 ++ [x0a]).
    rewrite read_groups_printf, map_deref_seq by (rewrite Hlen; simpl; lia).
    change (0 + 2 * 16) with 32. rewrite <- Hlen. unfold range.
    cbn [skipn]. rewrite Nat.sub_0_r. apply firstn_all. }
  intros Hlen. split; [|split].
  - unfold file_sha256_print.
    rewrite !length_app, printf_groups_length. reflexivity.
  - now apply Hread.
  - intros hash' Hlen' Heq.
    rewrite <- (Hread hash' Hlen'), Heq. now apply Hread.
Qed.

Lemma file_sha256_print_reads_back_witness :
  read_sha256 (file_sha256_print (SHA256 bytes_a)) = SHA256 bytes_a.
Proof.
  destruct (file_sha256_print_reads_back (SHA256 bytes_a)) as (_ & H & _).
  - vm_compute. reflexivity.
  - exact H.
Defined.
